(** * Minimax.h: depth-bounded minimax with alpha-beta pruning

    A shallow embedding of [src/src/Minimax.h] (the class template
    [Minimax<GameState, Move, MaxMoves, MaxDepth>]) and the properties of
    its root operation [findBestMove] and of its recursive search
    [minimax].

    Modelling choices.
    - [int] is [Z].  The engine computes on scores only with [max], [min]
      and comparisons; its only arithmetic is [depth - 1] and the increment
      of the node counter.  Signed overflow is undefined in C++ and is not
      part of the model: the counter of the model is the [int] counter of
      the source as long as the count does not exceed [INT_MAX], and every
      statement about the exact value of the counter carries that bound.
    - A [GameState] object lives in a cell of a store ([heap]); a
      [const GameState&] is the index of a cell.  [GameState newState = state]
      allocates a cell on top of the store, [applyMove] overwrites a cell in
      place, and the cell is released when the loop iteration that declared
      it ends.
    - The capability [GameLogic] is a record of pure functions on the
      contents of cells; the engine performs the reads and writes.
      [generateMoves] returns the moves it wrote to the buffer, in order;
      the count it returns is their number.
    - Recursion of [minimax] is on a fuel that bounds the nesting of
      invocations: one unit per stack frame.
    - Every call into the capability, every copy and every entry of
      [minimax] is logged in [trace]. *)

From Stdlib Require Import ZArith Lia List Bool.
From stdpp Require Import base list.
Import ListNotations.
Local Open Scope Z_scope.

(** ** The machine: store, engine fields, log *)

Definition loc := nat.

Section Engine.

Context {GameState Move : Type}.

Inductive event : Type :=
| EvEvaluate (state : loc)
| EvGenerateMoves (state : loc) (maxMoves : Z)
| EvApplyMove (state : loc) (move : Move)
| EvIsTerminal (state : loc)
| EvIsMaximizingPlayer (state : loc)
| EvCopy (src dst : loc)
| EvMinimax (state : loc) (depth alpha beta : Z) (maximizingPlayer : bool).

(** [class GameLogic], lines 32-61. *)
Record GameLogic : Type := {
  evaluate : GameState -> Z;
  generateMoves : GameState -> Z -> list Move;
  applyMove : GameState -> Move -> GameState;
  isTerminal : GameState -> bool;
  isMaximizingPlayer : GameState -> bool
}.

(** The store and the private fields of the engine (lines 118-120). *)
Record machine : Type := Machine {
  heap : list GameState;
  _bestScore : Z;
  _nodesSearched : Z;
  trace : list event
}.

Inductive outcome (A : Type) : Type :=
| Done (a : A) (m : machine)
| Diverge
| Fault.

Arguments Done {A} a m.
Arguments Diverge {A}.
Arguments Fault {A}.

Definition M (A : Type) : Type := machine -> outcome A.

Definition ret {A : Type} (a : A) : M A := fun m => Done a m.

Definition bind {A B : Type} (c : M A) (k : A -> M B) : M B :=
  fun m =>
    match c m with
    | Done a m' => k a m'
    | Diverge => Diverge
    | Fault => Fault
    end.

Notation "'let!' x ':=' c 'in' k" := (bind c (fun x => k))
  (at level 10, x name, c at level 100, k at level 200).
Notation "'exec' c 'in' k" := (bind c (fun _ => k))
  (at level 10, c at level 100, k at level 200).

Definition diverge {A : Type} : M A := fun _ => Diverge.

Definition emit (e : event) : M unit :=
  fun m => Done tt (Machine (heap m) (_bestScore m) (_nodesSearched m) (trace m ++ [e])).

(** Reading through a [const GameState&]. *)
Definition deref (state : loc) : M GameState :=
  fun m =>
    match heap m !! state with
    | Some s => Done s m
    | None => Fault
    end.

(** Writing through a [GameState&]. *)
Definition assign (state : loc) (s : GameState) : M unit :=
  fun m =>
    match heap m !! state with
    | Some _ => Done tt (Machine (<[state := s]> (heap m)) (_bestScore m) (_nodesSearched m) (trace m))
    | None => Fault
    end.

(** [GameState newState = state;] *)
Definition copyState (state : loc) : M loc :=
  let! s := deref state in
  fun m =>
    let newState := length (heap m) in
    Done newState
      (Machine (heap m ++ [s]) (_bestScore m) (_nodesSearched m)
         (trace m ++ [EvCopy state newState])).

(** End of the block that declared [newState]. *)
Definition endScope (newState : loc) : M unit :=
  fun m => Done tt (Machine (take newState (heap m)) (_bestScore m) (_nodesSearched m) (trace m)).

Definition get_bestScore : M Z := fun m => Done (_bestScore m) m.

Definition set_bestScore (v : Z) : M unit :=
  fun m => Done tt (Machine (heap m) v (_nodesSearched m) (trace m)).

Definition set_nodesSearched (v : Z) : M unit :=
  fun m => Done tt (Machine (heap m) (_bestScore m) v (trace m)).

(** [_nodesSearched++] (line 126).  The field is an [int]; the model counts
    in [Z] and agrees with the field until the count passes [INT_MAX],
    where the increment of the source overflows. *)
Definition incr_nodesSearched : M unit :=
  fun m => Done tt (Machine (heap m) (_bestScore m) (_nodesSearched m + 1) (trace m)).

(** ** The engine *)

Variable Move_default : Move.
Variables MaxMoves MaxDepth : Z.
Variable _logic : GameLogic.

Definition logic_evaluate (state : loc) : M Z :=
  let! s := deref state in
  exec emit (EvEvaluate state) in
  ret (evaluate _logic s).

Definition logic_generateMoves (state : loc) (maxMoves : Z) : M (list Move) :=
  let! s := deref state in
  exec emit (EvGenerateMoves state maxMoves) in
  ret (generateMoves _logic s maxMoves).

Definition logic_applyMove (state : loc) (move : Move) : M unit :=
  let! s := deref state in
  exec emit (EvApplyMove state move) in
  assign state (applyMove _logic s move).

Definition logic_isTerminal (state : loc) : M bool :=
  let! s := deref state in
  exec emit (EvIsTerminal state) in
  ret (isTerminal _logic s).

Definition logic_isMaximizingPlayer (state : loc) : M bool :=
  let! s := deref state in
  exec emit (EvIsMaximizingPlayer state) in
  ret (isMaximizingPlayer _logic s).

(** The statements shared by the three loop bodies (lines 86-89, 138-140
    and 152-154): copy the state, apply the move to the copy, search the
    copy.  [newState] dies with the iteration; nothing reads it after the
    recursive call. *)
Definition searchChild (search : loc -> Z -> Z -> Z -> bool -> M Z)
    (state : loc) (move : Move) (depth alpha beta : Z) (maximizingPlayer : bool) : M Z :=
  let! newState := copyState state in
  exec logic_applyMove newState move in
  let! eval := search newState depth alpha beta maximizingPlayer in
  exec endScope newState in
  ret eval.

(** Lines 136-148: the loop of a maximizing node, entered with the moves
    [moves[i..moveCount-1]] still to visit. *)
Fixpoint maxLoop (search : loc -> Z -> Z -> Z -> bool -> M Z)
    (state : loc) (depth : Z) (moves : list Move) (alpha beta maxEval : Z) : M Z :=
  match moves with
  | [] => ret maxEval
  | move :: rest =>
      let! eval := searchChild search state move (depth - 1) alpha beta false in
      let maxEval := Z.max maxEval eval in
      let alpha := Z.max alpha eval in
      if beta <=? alpha then ret maxEval
      else maxLoop search state depth rest alpha beta maxEval
  end.

(** Lines 150-162: the loop of a minimizing node. *)
Fixpoint minLoop (search : loc -> Z -> Z -> Z -> bool -> M Z)
    (state : loc) (depth : Z) (moves : list Move) (alpha beta minEval : Z) : M Z :=
  match moves with
  | [] => ret minEval
  | move :: rest =>
      let! eval := searchChild search state move (depth - 1) alpha beta true in
      let minEval := Z.min minEval eval in
      let beta := Z.min beta eval in
      if beta <=? alpha then ret minEval
      else minLoop search state depth rest alpha beta minEval
  end.

(** Lines 125-164, one invocation; [search] is the recursive call. *)
Definition minimax_body (search : loc -> Z -> Z -> Z -> bool -> M Z)
    (state : loc) (depth alpha beta : Z) (maximizingPlayer : bool) : M Z :=
  exec emit (EvMinimax state depth alpha beta maximizingPlayer) in
  exec incr_nodesSearched in
  let! leaf := (if depth =? 0 then ret true else logic_isTerminal state) in
  if leaf : bool then logic_evaluate state
  else
    let! moves := logic_generateMoves state MaxMoves in
    if maximizingPlayer then maxLoop search state depth moves alpha beta (-32000)
    else minLoop search state depth moves alpha beta 32000.

Fixpoint minimax (fuel : nat) (state : loc) (depth alpha beta : Z)
    (maximizingPlayer : bool) : M Z :=
  match fuel with
  | O => diverge
  | S fuel' => minimax_body (minimax fuel') state depth alpha beta maximizingPlayer
  end.

(** Lines 85-102: the root loop. *)
Fixpoint rootLoop (fuel : nat) (state : loc) (isMax : bool)
    (moves : list Move) (bestMove : Move) : M Move :=
  match moves with
  | [] => ret bestMove
  | move :: rest =>
      let! score := searchChild (minimax fuel) state move (MaxDepth - 1) (-32000) 32000 (negb isMax) in
      let! best := get_bestScore in
      if isMax then
        if score >? best then
          exec set_bestScore score in rootLoop fuel state isMax rest move
        else rootLoop fuel state isMax rest bestMove
      else
        if score <? best then
          exec set_bestScore score in rootLoop fuel state isMax rest move
        else rootLoop fuel state isMax rest bestMove
  end.

(** Lines 72-105. *)
Definition findBestMove (fuel : nat) (state : loc) : M Move :=
  let bestMove := Move_default in
  let! moves := logic_generateMoves state MaxMoves in
  let moveCount := Z.of_nat (length moves) in
  if moveCount =? 0 then ret bestMove
  else
    let! isMax := logic_isMaximizingPlayer state in
    exec set_bestScore (if isMax : bool then -32000 else 32000) in
    exec set_nodesSearched 0 in
    rootLoop fuel state isMax moves bestMove.

(** Lines 110 and 115. *)
Definition getBestScore (m : machine) : Z := _bestScore m.
Definition getNodesSearched (m : machine) : Z := _nodesSearched m.

(** Line 67: the constructor sets [_nodesSearched] and leaves [_bestScore]
    indeterminate; [memory] is the caller's store. *)
Definition Minimax_new (memory : list GameState) (indeterminate : Z) : machine :=
  Machine memory indeterminate 0 [].

End Engine.

Arguments Done {GameState Move A} a m.
Arguments Diverge {GameState Move A}.
Arguments Fault {GameState Move A}.

(** ** Exhaustive minimax, the reference of the pruning claim *)

Section Reference.

Context {GameState Move : Type}.
Variable Move_default : Move.
Variables MaxMoves MaxDepth : Z.
Variable logic : @GameLogic GameState Move.

(** The reference the specification names in section 8, "exhaustive minimax
    without pruning": every child of a node is searched, in generation
    order, and the running extreme starts from the same sentinel; there is
    no window and no cutoff.  It works on positions, not on cells. *)
Fixpoint exhaustiveFold (pick : Z -> Z -> Z) (value : GameState -> option Z)
    (s : GameState) (moves : list Move) (acc : Z) : option Z :=
  match moves with
  | [] => Some acc
  | move :: rest =>
      match value (applyMove logic s move) with
      | Some v => exhaustiveFold pick value s rest (pick acc v)
      | None => None
      end
  end.

Fixpoint exhaustive (fuel : nat) (depth : Z) (maximizingPlayer : bool)
    (s : GameState) : option Z :=
  match fuel with
  | O => None
  | S fuel' =>
      if (depth =? 0) || isTerminal logic s then Some (evaluate logic s)
      else if maximizingPlayer then
        exhaustiveFold Z.max (exhaustive fuel' (depth - 1) false) s
          (generateMoves logic s MaxMoves) (-32000)
      else
        exhaustiveFold Z.min (exhaustive fuel' (depth - 1) true) s
          (generateMoves logic s MaxMoves) 32000
  end.

(** The root procedure of section 4.2 over the exhaustive search: strict
    comparison, generation order.  On a root without moves nothing is
    searched: the move is the default one and the score is the one the
    engine held before, [previousScore]. *)
Fixpoint exhaustiveRootLoop (fuel : nat) (s : GameState) (isMax : bool)
    (moves : list Move) (best : Move * Z) : option (Move * Z) :=
  match moves with
  | [] => Some best
  | move :: rest =>
      match exhaustive fuel (MaxDepth - 1) (negb isMax) (applyMove logic s move) with
      | Some score =>
          let better := if isMax then score >? snd best else score <? snd best in
          exhaustiveRootLoop fuel s isMax rest (if better then (move, score) else best)
      | None => None
      end
  end.

Definition exhaustiveRoot (fuel : nat) (s : GameState) (previousScore : Z)
    : option (Move * Z) :=
  let moves := generateMoves logic s MaxMoves in
  if Z.of_nat (length moves) =? 0 then Some (Move_default, previousScore)
  else
    let isMax := isMaximizingPlayer logic s in
    exhaustiveRootLoop fuel s isMax moves
      (Move_default, if isMax then -32000 else 32000).

(** ** Observations on a run *)

(** The score the engine's search gives to root move [move] of a position
    [s]: the value of the root loop's search of that child, run on a
    machine whose only cell holds [s]. *)
Definition rootScore (fuel : nat) (s : GameState) (isMax : bool) (move : Move)
    : option Z :=
  match searchChild logic (minimax MaxMoves logic fuel) 0%nat move
          (MaxDepth - 1) (-32000) 32000 (negb isMax) (Machine [s] 0 0 []) with
  | Done v _ => Some v
  | _ => None
  end.

(** [improves isMax a b]: score [a] is a strict improvement on [b] for the
    root player. *)
Definition improves (isMax : bool) (a b : Z) : Prop :=
  if isMax then b < a else a < b.

(** The extreme the root starts from (line 82). *)
Definition sentinel (isMax : bool) : Z := if isMax then -32000 else 32000.

Definition is_minimax (e : @event Move) : bool :=
  match e with EvMinimax _ _ _ _ _ => true | _ => false end.

(** Number of invocations of [minimax] in a log. *)
Definition invocations (evs : list (@event Move)) : Z :=
  Z.of_nat (length (filter (fun e => is_minimax e = true) evs)).

(** Every search logged in [evs] runs at a depth between [lo] and [hi]. *)
Definition depths_within (lo hi : Z) (evs : list (@event Move)) : Prop :=
  Forall (fun e => match e with
                   | EvMinimax _ d _ _ _ => lo <= d <= hi
                   | _ => True
                   end) evs.

(** Every cell that [evs] copies into or applies a move to lies at or above
    [base]: outside the store the caller handed over. *)
Definition writes_above (base : nat) (evs : list (@event Move)) : Prop :=
  Forall (fun e => match e with
                   | EvApplyMove l _ => (base <= l)%nat
                   | EvCopy _ dst => (base <= dst)%nat
                   | _ => True
                   end) evs.

(** Every [applyMove] in the log comes right after the copy that made its
    target; [last] is the cell made by the event just before, if that was a
    copy. *)
Fixpoint applies_after_copy (last : option loc) (evs : list (@event Move)) : bool :=
  match evs with
  | [] => true
  | EvApplyMove l _ :: rest =>
      match last with
      | Some dst => Nat.eqb dst l && applies_after_copy None rest
      | None => false
      end
  | EvCopy _ dst :: rest => applies_after_copy (Some dst) rest
  | _ :: rest => applies_after_copy None rest
  end.

Definition applies_on_copies (evs : list (@event Move)) : bool :=
  applies_after_copy None evs.

(** A search entered at depth [d] logs depths [d'] no larger than [d], and
    none below [0] when [d] is not. *)
Definition depth_ok (d d' : Z) : Prop := d' <= d /\ (0 <= d -> 0 <= d').

Definition depths_under (d : Z) (evs : list (@event Move)) : Prop :=
  Forall (fun e => match e with
                   | EvMinimax _ d' _ _ _ => depth_ok d d'
                   | _ => True
                   end) evs.

(** What a search leaves behind: the store as it found it, a longer log,
    and a counter advanced by the invocations logged. *)
Definition extends (d : Z) (st st' : @machine GameState Move) : Prop :=
  heap st' = heap st /\
  exists evs,
    trace st' = trace st ++ evs /\
    _nodesSearched st' = _nodesSearched st + invocations evs /\
    writes_above (length (heap st)) evs /\
    applies_on_copies evs = true /\
    depths_under d evs.

(** The store is a stack, so the cell of a search tells how deeply it is
    nested: a search on the cell [base + k] is [k + 1] invocations deep.
    [levels base top evs]: every search logged in [evs] works on a cell at
    or above [base], and its depth is [top] less one for every cell above
    [base]. *)
Definition levels (base : nat) (top : Z) (evs : list (@event Move)) : Prop :=
  Forall (fun e => match e with
                   | EvMinimax l d _ _ _ =>
                       (base <= l)%nat /\ d = top - Z.of_nat (l - base)
                   | _ => True
                   end) evs.

(** A search at depth [d] logs its entry first; the searches below it are
    nested one level per unit of depth. *)
Definition search_levels (search : loc -> Z -> Z -> Z -> bool -> @M GameState Move Z)
    (d : Z) : Prop :=
  forall l alpha beta mp (st : @machine GameState Move) v st',
    search l d alpha beta mp st = Done v st' ->
    exists evs,
      trace st' = trace st ++ EvMinimax l d alpha beta mp :: evs /\
      levels (length (heap st)) (d - 1) evs.

(** A function that behaves as a search at depth [d]: it leaves the store
    and the best score as it found them. *)
Definition search_frames (search : loc -> Z -> Z -> Z -> bool -> @M GameState Move Z)
    (d : Z) : Prop :=
  forall l alpha beta mp (st : @machine GameState Move) v st',
    search l d alpha beta mp st = Done v st' ->
    extends d st st' /\ _bestScore st' = _bestScore st.

(** How the value [v] of a search with window [(alpha, beta)] stands to
    the exhaustive value [t] of the same node: exact inside the window, and
    a bound on the side where it falls outside. *)
Definition failsoft (alpha beta v t : Z) : Prop :=
  (v <= alpha -> t <= v) /\ (beta <= v -> v <= t) /\ (alpha < v < beta -> v = t).

(** Unless the two values agree, both carry the sentinel the node started
    from as a bound. *)
Definition node_bound (mp : bool) (v t : Z) : Prop :=
  v = t \/ (if mp then -32000 <= v /\ -32000 <= t else v <= 32000 /\ t <= 32000).

(** A search function that returns, on every window, a value that stands
    as [failsoft] to the value [value] gives to the position searched. *)
Definition search_refines (search : loc -> Z -> Z -> Z -> bool -> @M GameState Move Z) (value : GameState -> option Z)
    (d : Z) (mp : bool) : Prop :=
  forall (st : @machine GameState Move) l s alpha beta t,
    value s = Some t -> heap st !! l = Some s -> alpha < beta ->
    exists v st', search l d alpha beta mp st = Done v st' /\ failsoft alpha beta v t.

(** Two runs agree when both return the same value or both run out of
    fuel. *)
Definition agree {A : Type} (o1 o2 : @outcome GameState Move A) : Prop :=
  match o1, o2 with
  | Done v1 _, Done v2 _ => v1 = v2
  | Diverge, Diverge => True
  | _, _ => False
  end.

(** The value a search returns depends on the position in the cell it is
    given, not on where the cell lies nor on the rest of the machine. *)
Definition search_indep (search : loc -> Z -> Z -> Z -> bool -> @M GameState Move Z)
    (d : Z) : Prop :=
  forall (st1 st2 : @machine GameState Move) l1 l2 s alpha beta mp,
    heap st1 !! l1 = Some s -> heap st2 !! l2 = Some s ->
    agree (search l1 d alpha beta mp st1) (search l2 d alpha beta mp st2).

(** ** The steps of a run *)

(** The machine a child search starts from: the copy sits on top of the
    store and already carries the move. *)
Definition enter (st : @machine GameState Move) (state : loc) (s : GameState)
    (move : Move) : @machine GameState Move :=
  Machine (heap st ++ [applyMove logic s move]) (_bestScore st) (_nodesSearched st)
    (trace st ++ [EvCopy state (length (heap st)); EvApplyMove (length (heap st)) move]).

(** The machine left when the iteration of that child ends. *)
Definition leave (st st1 : @machine GameState Move) : @machine GameState Move :=
  Machine (take (length (heap st)) (heap st1)) (_bestScore st1) (_nodesSearched st1)
    (trace st1).

(** The machine on which a search starts its work: the entry is logged and
    counted, and [more] are the capability calls that follow. *)
Definition entered (st : @machine GameState Move) (state : loc)
    (depth alpha beta : Z) (mp : bool) (more : list (@event Move))
    : @machine GameState Move :=
  Machine (heap st) (_bestScore st) (_nodesSearched st + 1)
    (trace st ++ EvMinimax state depth alpha beta mp :: more).

(** The machine the root loop starts on (lines 81-83). *)
Definition root_start (st : @machine GameState Move) (state : loc) (isMax : bool)
    : @machine GameState Move :=
  Machine (heap st) (sentinel isMax) 0
    (trace st ++ [EvGenerateMoves state MaxMoves; EvIsMaximizingPlayer state]).

(** The machine left by a root call that found no move (line 78). *)
Definition root_empty (st : @machine GameState Move) (state : loc)
    : @machine GameState Move :=
  Machine (heap st) (_bestScore st) (_nodesSearched st)
    (trace st ++ [EvGenerateMoves state MaxMoves]).

(** What the root loop has selected once the moves [moves] are behind it:
    no score of theirs improves on [best]; and either nothing improved on
    the sentinel and the tracker still holds the default move, or [best]
    improves on the sentinel and [bestMove] is the first of [moves] whose
    score is [best]. *)
Definition selects (isMax : bool) (score : Move -> option Z) (moves : list Move)
    (best : Z) (bestMove : Move) : Prop :=
  (forall j mj, moves !! j = Some mj ->
     exists sj, score mj = Some sj /\ ~ improves isMax sj best) /\
  ((best = sentinel isMax /\ bestMove = Move_default) \/
   (improves isMax best (sentinel isMax) /\
    exists i, moves !! i = Some bestMove /\ score bestMove = Some best /\
      forall j mj sj, (j < i)%nat -> moves !! j = Some mj -> score mj = Some sj ->
        sj <> best)).

End Reference.

(** ** Two capabilities to run the engine on *)

(** A game given by its tree.  A leaf is a decided position; an inner
    position carries a heuristic value and its successors.  Moves are
    numbered from 1 in generation order, so that the default move [0] is
    never a legal one. *)
#[local] Unset Elimination Schemes.
Inductive tree : Type :=
| Leaf (value : Z)
| Inner (value : Z) (children : list tree).
#[local] Set Elimination Schemes.

Definition position : Type := bool * tree.

Definition tree_value (t : tree) : Z :=
  match t with Leaf v => v | Inner v _ => v end.

Definition tree_children (t : tree) : list tree :=
  match t with Leaf _ => [] | Inner _ cs => cs end.

Definition treeGame : @GameLogic position nat := {|
  evaluate := fun p => tree_value (snd p);
  generateMoves := fun p maxMoves =>
    take (Z.to_nat maxMoves) (seq 1 (length (tree_children (snd p))));
  applyMove := fun p move =>
    (negb (fst p), nth (move - 1) (tree_children (snd p)) (Leaf 0));
  isTerminal := fun p => match snd p with Leaf _ => true | Inner _ _ => false end;
  isMaximizingPlayer := fun p => fst p
|}.

(** A game that never ends: the position counts the moves played and one
    move is always available. *)
Definition endlessGame : @GameLogic nat nat := {|
  evaluate := fun _ => 0;
  generateMoves := fun _ _ => [1%nat];
  applyMove := fun p _ => S p;
  isTerminal := fun _ => false;
  isMaximizingPlayer := fun _ => true
|}.

(** [Minimax<position, nat, 64, depth>] bound to [treeGame]. *)
Definition treeFind (depth : Z) (fuel : nat) (state : loc)
    : @machine position nat -> @outcome position nat nat :=
  findBestMove 0%nat 64 depth treeGame fuel state.

(** Positions of the tree game kept in the caller's store: a position with
    three replies of two leaves each, a decided position, a position whose
    two moves both lose with the sentinel score, an inner position without
    successors, and a maximizing node whose first reply already exceeds a
    window closed at 5. *)
Definition demoTree : position :=
  (true, Inner 0 [Inner 0 [Leaf 3; Leaf 5]; Inner 0 [Leaf 2; Leaf 9]; Inner 0 [Leaf 3; Leaf 4]]).
Definition decided : position := (true, Leaf 4).
Definition lostTree : position := (true, Inner 0 [Leaf (-32000); Leaf (-32000)]).
Definition stuckTree : position := (false, Inner 7 []).
Definition cutTree : position := (true, Inner 0 [Leaf 9; Leaf 1]).

(** A fresh engine over that store. *)
Definition demoMachine : @machine position nat :=
  Minimax_new [demoTree; decided; lostTree; stuckTree; cutTree] 0.

(** The machine an outcome leaves, [otherwise] when there is none. *)
Definition machine_of {GameState Move A : Type} (o : @outcome GameState Move A)
    (otherwise : @machine GameState Move) : @machine GameState Move :=
  match o with
  | Done _ m => m
  | _ => otherwise
  end.

(** The engine after a first root call, on [demoTree], at depth bound 2. *)
Definition afterDemo : @machine position nat :=
  Eval vm_compute in machine_of (treeFind 2 2 0%nat demoMachine) demoMachine.

(** The engine after a root call on [lostTree]. *)
Definition afterLost : @machine position nat :=
  Eval vm_compute in machine_of (treeFind 2 2 2%nat demoMachine) demoMachine.

(** [Minimax<nat, nat, 64, 0>] bound to [endlessGame]. *)
Definition endlessFind (fuel : nat) : @outcome nat nat nat :=
  findBestMove 0%nat 64 0 endlessGame fuel 0%nat (Minimax_new [0%nat] 0).

(** ** Further observations on a run *)

Section Observations.

Context {GameState Move : Type}.
Variable Move_default : Move.
Variables MaxMoves MaxDepth : Z.
Variable logic : @GameLogic GameState Move.

(** The two loops of [minimax] (lines 136-148 and 150-162) read as one,
    indexed by the flag of the node: the running extreme, the side of the
    window that moves and the flag handed to the children depend on it.
    [maxLoop] and [minLoop] are its two instances. *)
Fixpoint nodeLoop (maximizingPlayer : bool)
    (search : loc -> Z -> Z -> Z -> bool -> @M GameState Move Z)
    (state : loc) (depth : Z) (moves : list Move) (alpha beta acc : Z)
    : @M GameState Move Z :=
  match moves with
  | [] => ret acc
  | move :: rest =>
      bind (searchChild logic search state move (depth - 1) alpha beta
              (negb maximizingPlayer))
        (fun eval =>
           let acc' := if maximizingPlayer then Z.max acc eval else Z.min acc eval in
           let alpha' := if maximizingPlayer then Z.max alpha eval else alpha in
           let beta' := if maximizingPlayer then beta else Z.min beta eval in
           if beta' <=? alpha' then ret acc'
           else nodeLoop maximizingPlayer search state depth rest alpha' beta' acc')
  end.

(** The moves applied, in order of the log, to the cell [n]. *)
Fixpoint applied_at (n : loc) (evs : list (@event Move)) : list Move :=
  match evs with
  | [] => []
  | EvApplyMove l move :: rest =>
      if Nat.eqb l n then move :: applied_at n rest else applied_at n rest
  | _ :: rest => applied_at n rest
  end.

(** Every search logged in [evs] is entered with a window that is open and
    lies between the two sentinels. *)
Definition windows_open (evs : list (@event Move)) : Prop :=
  Forall (fun e => match e with
                   | EvMinimax _ _ a b _ => -32000 <= a /\ a < b /\ b <= 32000
                   | _ => True
                   end) evs.

(** No call of [isMaximizingPlayer] is logged in [evs], and the flag of a
    search on the cell [base + k] is [mp] flipped [k] times. *)
Definition flags_alternate (base : nat) (mp : bool) (evs : list (@event Move)) : Prop :=
  Forall (fun e => match e with
                   | EvMinimax l _ _ _ f =>
                       (base <= l)%nat /\ f = xorb mp (Nat.odd (l - base))
                   | EvIsMaximizingPlayer _ => False
                   | _ => True
                   end) evs.

(** The only event of [evs] that names a cell below [base] is a copy out
    of [state]: no capability call, no search and no write reaches the
    cells below [base]. *)
Definition stays_above (base : nat) (state : loc) (evs : list (@event Move)) : Prop :=
  Forall (fun e => match e with
                   | EvCopy src dst => (src = state \/ (base <= src)%nat) /\ (base <= dst)%nat
                   | EvEvaluate l | EvIsTerminal l | EvIsMaximizingPlayer l
                   | EvGenerateMoves l _ | EvApplyMove l _
                   | EvMinimax l _ _ _ _ => (base <= l)%nat
                   end) evs.

(** The three together, as the searches keep them. *)
Definition nested (base : nat) (state : loc) (mp : bool) (evs : list (@event Move)) : Prop :=
  windows_open evs /\ flags_alternate base mp evs /\ stays_above base state evs.

(** The calls a search makes on its own cell before it returns or loops. *)
Definition own_calls (l : loc) (calls : list (@event Move)) : Prop :=
  calls = [EvEvaluate l] \/
  calls = [EvIsTerminal l; EvEvaluate l] \/
  calls = [EvIsTerminal l; EvGenerateMoves l MaxMoves].

(** A search entered with an open window between the sentinels logs its
    entry, its own calls, and then what its loop does. *)
Definition search_nested (search : loc -> Z -> Z -> Z -> bool -> @M GameState Move Z)
    (d : Z) : Prop :=
  forall l alpha beta mp (st : @machine GameState Move) v st',
    -32000 <= alpha -> alpha < beta -> beta <= 32000 ->
    search l d alpha beta mp st = Done v st' ->
    exists calls evs,
      trace st' = trace st ++ EvMinimax l d alpha beta mp :: calls ++ evs /\
      own_calls l calls /\
      nested (length (heap st)) l (negb mp) evs.

(** A bound on the nodes of a tree of height [n] with at most [b]
    successors per node: [1 + b + ... + b^n]. *)
Fixpoint nodeBound (b : Z) (n : nat) : Z :=
  match n with
  | O => 1
  | S k => 1 + b * nodeBound b k
  end.

(** The number of invocations exhaustive search makes below and at a
    node: one for the node, and those of every successor when it is not a
    leaf. *)
Fixpoint exhaustiveNodes (fuel : nat) (depth : Z) (s : GameState) : option Z :=
  match fuel with
  | O => None
  | S fuel' =>
      if (depth =? 0) || isTerminal logic s then Some 1
      else exhaustiveFold logic Z.add (exhaustiveNodes fuel' (depth - 1)) s
             (generateMoves logic s MaxMoves) 1
  end.

(** The invocations exhaustive search makes for a root call. *)
Definition exhaustiveRootNodes (fuel : nat) (s : GameState) : option Z :=
  exhaustiveFold logic Z.add (exhaustiveNodes fuel (MaxDepth - 1)) s
    (generateMoves logic s MaxMoves) 0.

(** Two root calls agree when both return the same move and leave the same
    best score and node count, or both run out of fuel. *)
Definition agree_root (o1 o2 : @outcome GameState Move Move) : Prop :=
  match o1, o2 with
  | Done m1 st1, Done m2 st2 =>
      m1 = m2 /\ _bestScore st1 = _bestScore st2 /\ _nodesSearched st1 = _nodesSearched st2
  | Diverge, Diverge => True
  | _, _ => False
  end.

(** Two searches started on [st1] and [st2] agree when both return the
    same value after the same number of invocations, or both run out of
    fuel. *)
Definition agree_work (st1 st2 : @machine GameState Move)
    (o1 o2 : @outcome GameState Move Z) : Prop :=
  match o1, o2 with
  | Done v1 st1', Done v2 st2' =>
      v1 = v2 /\
      _nodesSearched st1' - _nodesSearched st1 = _nodesSearched st2' - _nodesSearched st2
  | Diverge, Diverge => True
  | _, _ => False
  end.

End Observations.

(** A position three plies deep on which the search prunes: the second
    reply to the only root move is refuted by its first leaf. *)
Definition deepTree : position :=
  (true, Inner 0 [Inner 0 [Inner 0 [Leaf 3]; Inner 0 [Leaf 5; Leaf 1]]]).

Definition deepMachine : @machine position nat := Minimax_new [deepTree] 0.

(** The engine after a root call on [deepTree] at depth bound 3. *)
Definition afterDeep : @machine position nat :=
  Eval vm_compute in machine_of (treeFind 3 3 0%nat deepMachine) deepMachine.

(** The machine after a search of [cutTree] at depth 1 with the window
    closed at 5. *)
Definition afterCut : @machine position nat :=
  Eval vm_compute in
    machine_of (minimax 64 treeGame 2 4%nat 1 (-32000) 5 true demoMachine) demoMachine.

(** [Minimax<nat, nat, 64, 2>] bound to [endlessGame], and the engine after
    a root call. *)
Definition endlessMachine : @machine nat nat := Minimax_new [0%nat] 0.

Definition afterEndless : @machine nat nat :=
  Eval vm_compute in
    machine_of (findBestMove 0%nat 64 2 endlessGame 2 0%nat endlessMachine) endlessMachine.

(** The engine after a second root call on [demoTree], made by the engine
    that has already searched it once and counted 9 nodes. *)
Definition afterAgain : @machine position nat :=
  Eval vm_compute in machine_of (treeFind 2 2 0%nat afterDemo) afterDemo.

(** * Properties *)

Section Theory.

Context {GameState Move : Type}.
Variable Move_default : Move.
Variables MaxMoves MaxDepth : Z.
Variable logic : @GameLogic GameState Move.

Abbreviation machine := (@machine GameState Move).
Abbreviation search_fn := (loc -> Z -> Z -> Z -> bool -> @M GameState Move Z).
Abbreviation ab := (minimax MaxMoves logic).
Abbreviation find := (findBestMove Move_default MaxMoves MaxDepth logic).
Abbreviation root := (rootLoop MaxMoves MaxDepth logic).

(** ** Unfolding one step of the engine *)

Lemma searchChild_eq (search : search_fn) st state s move depth alpha beta mp :
  heap st !! state = Some s ->
  searchChild logic search state move depth alpha beta mp st =
  match search (length (heap st)) depth alpha beta mp (enter logic st state s move) with
  | Done v st1 => Done v (leave st st1)
  | Diverge => Diverge
  | Fault => Fault
  end.
Proof.
  intros Hs.
  unfold searchChild, copyState, logic_applyMove, bind, deref, emit, assign, endScope, ret.
  rewrite Hs. cbn [heap _bestScore _nodesSearched trace].
  rewrite list_lookup_middle by reflexivity.
  cbn [heap _bestScore _nodesSearched trace].
  rewrite list_lookup_middle by reflexivity.
  replace (<[length (heap st) := applyMove logic s move]> (heap st ++ [s]))
    with (heap st ++ [applyMove logic s move]).
  2:{ rewrite <- (Nat.add_0_r (length (heap st))) at 1.
      rewrite insert_app_r. reflexivity. }
  rewrite <- app_assoc. cbn [app]. unfold enter, leave.
  destruct (search _ _ _ _ _ _); reflexivity.
Qed.

Lemma searchChild_dangling (search : search_fn) st state move depth alpha beta mp :
  heap st !! state = None ->
  searchChild logic search state move depth alpha beta mp st = Fault.
Proof.
  intros Hs. unfold searchChild, copyState, bind, deref. rewrite Hs. reflexivity.
Qed.

Lemma enter_lookup st state s move :
  heap (enter logic st state s move) !! length (heap st) = Some (applyMove logic s move).
Proof. unfold enter; cbn [heap]. apply list_lookup_middle. reflexivity. Qed.

Lemma minimax_eq fuel st state s depth alpha beta mp :
  heap st !! state = Some s ->
  ab (S fuel) state depth alpha beta mp st =
  if depth =? 0 then
    Done (evaluate logic s) (entered st state depth alpha beta mp [EvEvaluate state])
  else if isTerminal logic s then
    Done (evaluate logic s)
      (entered st state depth alpha beta mp [EvIsTerminal state; EvEvaluate state])
  else
    let st0 := entered st state depth alpha beta mp
                 [EvIsTerminal state; EvGenerateMoves state MaxMoves] in
    let moves := generateMoves logic s MaxMoves in
    if mp then maxLoop logic (ab fuel) state depth moves alpha beta (-32000) st0
    else minLoop logic (ab fuel) state depth moves alpha beta 32000 st0.
Proof.
  intros Hs. cbn [minimax]. unfold minimax_body.
  unfold bind at 1. unfold emit at 1. unfold bind at 1. unfold incr_nodesSearched at 1.
  cbn [heap _bestScore _nodesSearched trace].
  unfold entered.
  destruct (depth =? 0).
  - unfold bind, ret, logic_evaluate, bind, deref, emit, ret.
    cbn [heap _bestScore _nodesSearched trace]. rewrite Hs.
    cbn [heap _bestScore _nodesSearched trace]. rewrite <- app_assoc. reflexivity.
  - unfold bind at 1. unfold logic_isTerminal, bind, deref, emit, ret.
    cbn [heap _bestScore _nodesSearched trace]. rewrite Hs.
    cbn [heap _bestScore _nodesSearched trace].
    destruct (isTerminal logic s).
    + unfold logic_evaluate, bind, deref, emit, ret.
      cbn [heap _bestScore _nodesSearched trace]. rewrite Hs.
      cbn [heap _bestScore _nodesSearched trace]. rewrite <- !app_assoc. reflexivity.
    + unfold logic_generateMoves, bind, deref, emit, ret.
      cbn [heap _bestScore _nodesSearched trace]. rewrite Hs.
      cbn [heap _bestScore _nodesSearched trace]. rewrite <- !app_assoc.
      destruct mp; reflexivity.
Qed.

Lemma minimax_dangling fuel st state depth alpha beta mp :
  heap st !! state = None ->
  ab (S fuel) state depth alpha beta mp st = Fault.
Proof.
  intros Hs. cbn [minimax]. unfold minimax_body.
  unfold bind at 1. unfold emit at 1. unfold bind at 1. unfold incr_nodesSearched at 1.
  destruct (depth =? 0).
  - unfold bind, ret, logic_evaluate, bind, deref.
    cbn [heap _bestScore _nodesSearched trace]. rewrite Hs. reflexivity.
  - unfold bind, ret, logic_isTerminal, bind, deref.
    cbn [heap _bestScore _nodesSearched trace]. rewrite Hs. reflexivity.
Qed.

(** ** What every search leaves behind *)

Lemma invocations_app (a b : list (@event Move)) :
  invocations (a ++ b) = invocations a + invocations b.
Proof. unfold invocations. rewrite filter_app, length_app. lia. Qed.

Lemma invocations_nil : invocations (@nil (@event Move)) = 0.
Proof. reflexivity. Qed.

Lemma invocations_cons (e : @event Move) evs :
  invocations (e :: evs) = (if is_minimax e then 1 else 0) + invocations evs.
Proof.
  unfold invocations. rewrite filter_cons.
  destruct (is_minimax e); cbn [decide]; case_decide; try congruence;
    cbn [length]; lia.
Qed.

Lemma applies_after_copy_mono last (evs : list (@event Move)) :
  applies_after_copy None evs = true -> applies_after_copy last evs = true.
Proof. destruct evs as [|[] evs]; cbn; auto; discriminate. Qed.

Lemma applies_after_copy_app last (a b : list (@event Move)) :
  applies_after_copy last a = true ->
  applies_after_copy None b = true ->
  applies_after_copy last (a ++ b) = true.
Proof.
  revert last. induction a as [|e a IH]; intros last Ha Hb.
  - now apply applies_after_copy_mono.
  - destruct e; cbn in *; auto.
    destruct last; [|discriminate].
    apply andb_true_iff in Ha as [-> Ha]. cbn. auto.
Qed.

Lemma writes_above_mono (n k : nat) (evs : list (@event Move)) :
  (n <= k)%nat -> writes_above k evs -> writes_above n evs.
Proof.
  intros Hnk Hk. unfold writes_above in *.
  eapply Forall_impl; [exact Hk|]. intros []; auto; cbn; lia.
Qed.

Lemma depths_under_mono d d' (evs : list (@event Move)) :
  (forall x, depth_ok d x -> depth_ok d' x) ->
  depths_under d evs -> depths_under d' evs.
Proof.
  intros Hdd Hd. unfold depths_under in *.
  eapply Forall_impl; [exact Hd|]. intros []; auto.
Qed.

Lemma extends_refl d (st : machine) : extends d st st.
Proof.
  split; [reflexivity|]. exists []. rewrite app_nil_r.
  repeat split; try constructor. rewrite invocations_nil. lia.
Qed.

Lemma extends_trans d (st st1 st2 : machine) :
  extends d st st1 -> extends d st1 st2 -> extends d st st2.
Proof.
  intros (Hh1 & e1 & Ht1 & Hn1 & Hw1 & Ha1 & Hd1) (Hh2 & e2 & Ht2 & Hn2 & Hw2 & Ha2 & Hd2).
  split; [congruence|]. exists (e1 ++ e2).
  rewrite Hh1 in Hw2. rewrite invocations_app.
  repeat split.
  - rewrite Ht2, Ht1, app_assoc. reflexivity.
  - lia.
  - apply Forall_app; auto.
  - now apply applies_after_copy_app.
  - apply Forall_app; auto.
Qed.

Lemma extends_weaken d d' (st st' : machine) :
  (forall x, depth_ok d x -> depth_ok d' x) ->
  extends d st st' -> extends d' st st'.
Proof.
  intros Hdd (Hh & e & Ht & Hn & Hw & Ha & Hd).
  split; [assumption|]. exists e. repeat split; auto.
  eapply depths_under_mono; eauto.
Qed.

Lemma searchChild_run (search : search_fn) d state move alpha beta mp
    (st : machine) v st' :
  search_frames search d ->
  searchChild logic search state move d alpha beta mp st = Done v st' ->
  extends d st st' /\ _bestScore st' = _bestScore st.
Proof.
  intros Hsearch Hrun.
  destruct (heap st !! state) as [s|] eqn:Hs.
  2:{ rewrite searchChild_dangling in Hrun by assumption. discriminate. }
  rewrite (searchChild_eq _ _ _ s) in Hrun by assumption.
  destruct (search _ _ _ _ _ _) as [v1 st1| |] eqn:Hchild; try discriminate.
  injection Hrun as <- <-.
  apply Hsearch in Hchild as [(Hh & e & Ht & Hn & Hw & Ha & Hd) Hb].
  cbn [enter heap _bestScore _nodesSearched trace] in *.
  split; [|exact Hb].
  split.
  - cbn [leave heap]. rewrite Hh. apply take_app_length.
  - exists ([EvCopy state (length (heap st)); EvApplyMove (length (heap st)) move] ++ e).
    cbn [leave heap _bestScore _nodesSearched trace].
    repeat split.
    + rewrite Ht, <- app_assoc. reflexivity.
    + rewrite Hn. cbn [app]. rewrite !invocations_cons. cbn [is_minimax]. lia.
    + apply Forall_app. split.
      * repeat constructor.
      * eapply writes_above_mono; [|exact Hw]. rewrite length_app. lia.
    + unfold applies_on_copies. cbn. rewrite Nat.eqb_refl. exact Ha.
    + apply Forall_app. split; [repeat constructor | exact Hd].
Qed.

Lemma depth_ok_pred d x : d <> 0 -> depth_ok (d - 1) x -> depth_ok d x.
Proof. unfold depth_ok. lia. Qed.

Lemma maxLoop_run (search : search_fn) state d :
  d <> 0 -> search_frames search (d - 1) ->
  forall moves alpha beta maxEval (st : machine) v st',
    maxLoop logic search state d moves alpha beta maxEval st = Done v st' ->
    extends d st st' /\ _bestScore st' = _bestScore st.
Proof.
  intros Hd Hsearch. induction moves as [|move rest IH]; intros alpha beta maxEval st v st' Hrun.
  - injection Hrun as <- <-. split; [apply extends_refl | reflexivity].
  - cbn [maxLoop] in Hrun. unfold bind in Hrun.
    destruct (searchChild _ _ _ _ _ _ _ _ st) as [eval st1| |] eqn:Hchild; try discriminate.
    apply (searchChild_run _ _ _ _ _ _ _ _ _ _ Hsearch) in Hchild as [Hext Hb].
    apply (extends_weaken _ d) in Hext; [|intros x; now apply depth_ok_pred].
    destruct (beta <=? Z.max alpha eval).
    + injection Hrun as <- <-. auto.
    + apply IH in Hrun as [Hext' Hb']. split; [eapply extends_trans; eauto | congruence].
Qed.

Lemma minLoop_run (search : search_fn) state d :
  d <> 0 -> search_frames search (d - 1) ->
  forall moves alpha beta minEval (st : machine) v st',
    minLoop logic search state d moves alpha beta minEval st = Done v st' ->
    extends d st st' /\ _bestScore st' = _bestScore st.
Proof.
  intros Hd Hsearch. induction moves as [|move rest IH]; intros alpha beta minEval st v st' Hrun.
  - injection Hrun as <- <-. split; [apply extends_refl | reflexivity].
  - cbn [minLoop] in Hrun. unfold bind in Hrun.
    destruct (searchChild _ _ _ _ _ _ _ _ st) as [eval st1| |] eqn:Hchild; try discriminate.
    apply (searchChild_run _ _ _ _ _ _ _ _ _ _ Hsearch) in Hchild as [Hext Hb].
    apply (extends_weaken _ d) in Hext; [|intros x; now apply depth_ok_pred].
    destruct (Z.min beta eval <=? alpha).
    + injection Hrun as <- <-. auto.
    + apply IH in Hrun as [Hext' Hb']. split; [eapply extends_trans; eauto | congruence].
Qed.

Lemma entered_extends (st : machine) state d alpha beta mp more :
  forallb (fun e => match e with
                    | EvMinimax _ _ _ _ _ | EvCopy _ _ | EvApplyMove _ _ => false
                    | _ => true
                    end) more = true ->
  extends d st (entered st state d alpha beta mp more).
Proof.
  intros Hmore. split; [reflexivity|].
  exists (EvMinimax state d alpha beta mp :: more).
  cbn [entered heap _bestScore _nodesSearched trace].
  assert (Hall : Forall (fun e : @event Move =>
            match e with
            | EvMinimax _ _ _ _ _ | EvCopy _ _ | EvApplyMove _ _ => False
            | _ => True
            end) more).
  { apply Forall_forall. intros e He.
    rewrite forallb_forall in Hmore. apply list_elem_of_In in He.
    specialize (Hmore e He). destruct e; auto; discriminate. }
  repeat split.
  - rewrite invocations_cons. cbn [is_minimax].
    assert (invocations more = 0) as ->; [|lia].
    clear Hmore. induction Hall as [|e l He _ IH]; [reflexivity|].
    rewrite invocations_cons, IH. destruct e; try contradiction; reflexivity.
  - constructor; [exact I|]. eapply Forall_impl; [exact Hall|]. intros []; tauto.
  - unfold applies_on_copies. cbn. clear Hmore.
    induction Hall as [|e l He _ IH]; [reflexivity|].
    destruct e; try contradiction; cbn; exact IH.
  - constructor; [unfold depth_ok; lia|].
    eapply Forall_impl; [exact Hall|]. intros []; tauto.
Qed.

Lemma minimax_run fuel : forall d, search_frames (ab fuel) d.
Proof.
  induction fuel as [|fuel IH]; intros d l alpha beta mp st v st' Hrun.
  - discriminate.
  - destruct (heap st !! l) as [s|] eqn:Hs.
    2:{ rewrite minimax_dangling in Hrun by assumption. discriminate. }
    rewrite (minimax_eq _ _ _ s) in Hrun by assumption.
    destruct (d =? 0) eqn:Hd.
    { injection Hrun as <- <-. split; [now apply entered_extends | reflexivity]. }
    apply Z.eqb_neq in Hd.
    destruct (isTerminal logic s).
    { injection Hrun as <- <-. split; [now apply entered_extends | reflexivity]. }
    cbv zeta in Hrun.
    assert (Hin : extends d st
              (entered st l d alpha beta mp [EvIsTerminal l; EvGenerateMoves l MaxMoves]))
      by now apply entered_extends.
    destruct mp.
    + apply (maxLoop_run _ _ _ Hd (IH (d - 1))) in Hrun as [Hext Hb].
      split; [eapply extends_trans; eauto | exact Hb].
    + apply (minLoop_run _ _ _ Hd (IH (d - 1))) in Hrun as [Hext Hb].
      split; [eapply extends_trans; eauto | exact Hb].
Qed.

(** ** Depth and nesting *)

Lemma levels_shift (n : nat) top (evs : list (@event Move)) :
  levels (S n) (top - 1) evs -> levels n top evs.
Proof.
  unfold levels. intros H. eapply Forall_impl; [exact H|].
  intros []; auto. intros [Hl ->]. split; lia.
Qed.

Lemma searchChild_levels (search : search_fn) d state move alpha beta mp
    (st : machine) v st' :
  search_levels search d ->
  searchChild logic search state move d alpha beta mp st = Done v st' ->
  exists evs, trace st' = trace st ++ evs /\ levels (length (heap st)) d evs.
Proof.
  intros Hlev Hrun.
  destruct (heap st !! state) as [s|] eqn:Hs.
  2:{ rewrite searchChild_dangling in Hrun by assumption. discriminate. }
  rewrite (searchChild_eq _ _ _ s) in Hrun by assumption.
  destruct (search _ _ _ _ _ _) as [v1 st1| |] eqn:Hchild; try discriminate.
  injection Hrun as <- <-.
  apply Hlev in Hchild as (evs & Ht & Hl).
  cbn [enter heap trace] in Ht, Hl. rewrite length_app in Hl. cbn [length] in Hl.
  exists ([EvCopy state (length (heap st)); EvApplyMove (length (heap st)) move]
            ++ EvMinimax (length (heap st)) d alpha beta mp :: evs).
  split.
  - cbn [leave trace]. rewrite Ht, <- app_assoc. reflexivity.
  - apply Forall_app. split; [repeat constructor|].
    constructor.
    + split; [lia|]. rewrite Nat.sub_diag. lia.
    + apply levels_shift. replace (length (heap st) + 1)%nat with (S (length (heap st))) in Hl by lia.
      exact Hl.
Qed.

Lemma maxLoop_levels (search : search_fn) state d :
  search_frames search (d - 1) -> search_levels search (d - 1) ->
  forall moves alpha beta maxEval (st : machine) v st',
    maxLoop logic search state d moves alpha beta maxEval st = Done v st' ->
    exists evs, trace st' = trace st ++ evs /\ levels (length (heap st)) (d - 1) evs.
Proof.
  intros Hframes Hlev.
  induction moves as [|move rest IH]; intros alpha beta maxEval st v st' Hrun.
  - injection Hrun as <- <-. exists []. split; [now rewrite app_nil_r | constructor].
  - cbn [maxLoop] in Hrun. unfold bind in Hrun.
    destruct (searchChild _ _ _ _ _ _ _ _ st) as [eval st1| |] eqn:Hchild; try discriminate.
    destruct (searchChild_run _ _ _ _ _ _ _ _ _ _ Hframes Hchild) as [[Hh _] _].
    apply (searchChild_levels _ _ _ _ _ _ _ _ _ _ Hlev) in Hchild as (e1 & Ht1 & Hl1).
    destruct (beta <=? Z.max alpha eval).
    + injection Hrun as <- <-. eauto.
    + apply IH in Hrun as (e2 & Ht2 & Hl2). rewrite Hh in Hl2.
      exists (e1 ++ e2). split; [now rewrite Ht2, Ht1, app_assoc|].
      apply Forall_app. auto.
Qed.

Lemma minLoop_levels (search : search_fn) state d :
  search_frames search (d - 1) -> search_levels search (d - 1) ->
  forall moves alpha beta minEval (st : machine) v st',
    minLoop logic search state d moves alpha beta minEval st = Done v st' ->
    exists evs, trace st' = trace st ++ evs /\ levels (length (heap st)) (d - 1) evs.
Proof.
  intros Hframes Hlev.
  induction moves as [|move rest IH]; intros alpha beta minEval st v st' Hrun.
  - injection Hrun as <- <-. exists []. split; [now rewrite app_nil_r | constructor].
  - cbn [minLoop] in Hrun. unfold bind in Hrun.
    destruct (searchChild _ _ _ _ _ _ _ _ st) as [eval st1| |] eqn:Hchild; try discriminate.
    destruct (searchChild_run _ _ _ _ _ _ _ _ _ _ Hframes Hchild) as [[Hh _] _].
    apply (searchChild_levels _ _ _ _ _ _ _ _ _ _ Hlev) in Hchild as (e1 & Ht1 & Hl1).
    destruct (Z.min beta eval <=? alpha).
    + injection Hrun as <- <-. eauto.
    + apply IH in Hrun as (e2 & Ht2 & Hl2). rewrite Hh in Hl2.
      exists (e1 ++ e2). split; [now rewrite Ht2, Ht1, app_assoc|].
      apply Forall_app. auto.
Qed.

Lemma minimax_levels fuel : forall d, search_levels (ab fuel) d.
Proof.
  induction fuel as [|fuel IH]; intros d l alpha beta mp st v st' Hrun.
  - discriminate.
  - destruct (heap st !! l) as [s|] eqn:Hs.
    2:{ rewrite minimax_dangling in Hrun by assumption. discriminate. }
    rewrite (minimax_eq _ _ _ s) in Hrun by assumption.
    destruct (d =? 0).
    { injection Hrun as <- <-. eexists. split; [reflexivity | repeat constructor]. }
    destruct (isTerminal logic s).
    { injection Hrun as <- <-. eexists. split; [reflexivity | repeat constructor]. }
    cbv zeta in Hrun.
    destruct mp;
      [apply (maxLoop_levels _ _ _ (minimax_run fuel _) (IH _)) in Hrun
      |apply (minLoop_levels _ _ _ (minimax_run fuel _) (IH _)) in Hrun];
      destruct Hrun as (evs & Ht & Hl); cbn [entered heap trace] in Ht, Hl;
      exists ([EvIsTerminal l; EvGenerateMoves l MaxMoves] ++ evs);
      (split; [rewrite Ht, <- app_assoc; reflexivity|]);
      (apply Forall_app; split; [repeat constructor | exact Hl]).
Qed.

(** The log of the search of one child: the copy, the move applied to it,
    the entry of the search on it, and then only events on cells above the
    copy, which belong to the subtree of that child. *)
Lemma searchChild_log fuel state move d alpha beta mp (st : machine) v st1 :
  searchChild logic (ab fuel) state move d alpha beta mp st = Done v st1 ->
  exists evs,
    trace st1 = trace st ++
      EvCopy state (length (heap st)) :: EvApplyMove (length (heap st)) move ::
      EvMinimax (length (heap st)) d alpha beta mp :: evs /\
    writes_above (S (length (heap st))) evs /\
    levels (S (length (heap st))) (d - 1) evs.
Proof.
  intros Hrun.
  destruct (heap st !! state) as [s|] eqn:Hs.
  2:{ rewrite searchChild_dangling in Hrun by assumption. discriminate. }
  rewrite (searchChild_eq _ _ _ s) in Hrun by assumption.
  destruct (ab fuel _ _ _ _ _ _) as [v1 st1'| |] eqn:Hchild; try discriminate.
  injection Hrun as <- <-.
  destruct (minimax_run fuel _ _ _ _ _ _ _ _ Hchild) as [(_ & e & Ht & _ & Hw & _) _].
  destruct (minimax_levels fuel _ _ _ _ _ _ _ _ Hchild) as (e' & Ht' & Hl).
  rewrite Ht in Ht'. apply app_inv_head in Ht'. subst e.
  cbn [enter heap trace] in *. rewrite length_app in Hw, Hl. cbn [length] in Hw, Hl.
  replace (length (heap st) + 1)%nat with (S (length (heap st))) in Hw, Hl by lia.
  exists e'. split.
  - cbn [leave trace]. rewrite Ht, <- app_assoc. reflexivity.
  - split; [|exact Hl]. unfold writes_above in *.
    apply Forall_cons in Hw as [_ Hw]. exact Hw.
Qed.

(** ** Pruned search against exhaustive search *)

Abbreviation exh := (exhaustive MaxMoves logic).

Lemma exhaustiveFold_max_ge value s moves : forall acc T,
  exhaustiveFold logic Z.max value s moves acc = Some T -> acc <= T.
Proof.
  induction moves as [|move rest IH]; intros acc T H; cbn in H.
  - injection H as <-. lia.
  - destruct (value _); [|discriminate]. apply IH in H. lia.
Qed.

Lemma exhaustiveFold_min_le value s moves : forall acc T,
  exhaustiveFold logic Z.min value s moves acc = Some T -> T <= acc.
Proof.
  induction moves as [|move rest IH]; intros acc T H; cbn in H.
  - injection H as <-. lia.
  - destruct (value _); [|discriminate]. apply IH in H. lia.
Qed.

Ltac child_step Hsearch Hframes Hs Ht Hab Hchild Hfs Hh :=
  rewrite (searchChild_eq _ _ _ _ _ _ _ _ _ Hs);
  match goal with
  | |- context [enter ?lg ?st ?l ?s ?mv] =>
      let v := fresh "v" in
      let st1 := fresh "st1" in
      destruct (Hsearch (enter lg st l s mv) (length (heap st)) _ _ _ _ Ht
                  (enter_lookup st l s mv) Hab)
        as (v & st1 & Hchild & Hfs);
      rewrite Hchild;
      destruct (Hframes _ _ _ _ _ _ _ Hchild) as [[Hh _] _];
      cbn [enter heap] in Hh
  end.

Lemma leave_lookup (st st1 : machine) x l :
  heap st1 = heap st ++ [x] -> heap (leave st st1) !! l = heap st !! l.
Proof. intros H. unfold leave. cbn [heap]. now rewrite H, take_app_length. Qed.

Lemma maxLoop_refines (search : search_fn) value state s d alpha0 beta :
  search_frames search (d - 1) ->
  search_refines search value (d - 1) false ->
  forall moves alpha maxEval acc (st : machine) T,
    heap st !! state = Some s ->
    alpha < beta -> alpha0 <= alpha -> alpha <= Z.max alpha0 maxEval ->
    acc <= maxEval -> (alpha0 < maxEval -> maxEval <= acc) ->
    exhaustiveFold logic Z.max value s moves acc = Some T ->
    exists V st',
      maxLoop logic search state d moves alpha beta maxEval st = Done V st' /\
      failsoft alpha0 beta V T /\ maxEval <= V.
Proof.
  intros Hframes Hsearch.
  induction moves as [|move rest IH];
    intros alpha maxEval acc st T Hs Hab H0 H1 H2 H3 Hexh; cbn in Hexh.
  - injection Hexh as <-. exists maxEval, st. split; [reflexivity|].
    unfold failsoft. lia.
  - destruct (value (applyMove logic s move)) as [t|] eqn:Ht; [|discriminate].
    cbn [maxLoop]. unfold bind.
    child_step Hsearch Hframes Hs Ht Hab Hchild Hfs Hh.
    destruct Hfs as (F1 & F2 & F3).
    destruct (beta <=? Z.max alpha v) eqn:Hcut.
    + apply Z.leb_le in Hcut. apply exhaustiveFold_max_ge in Hexh.
      eexists _, _. split; [reflexivity|]. unfold failsoft. lia.
    + apply Z.leb_gt in Hcut.
      destruct (IH (Z.max alpha v) (Z.max maxEval v) (Z.max acc t) (leave st st1) T)
        as (V & st' & Hloop & (G1 & G2 & G3) & Hle); try lia; try assumption.
      { rewrite (leave_lookup _ _ _ _ Hh). exact Hs. }
      exists V, st'. split; [exact Hloop|]. unfold failsoft. lia.
Qed.

Lemma minLoop_refines (search : search_fn) value state s d alpha beta0 :
  search_frames search (d - 1) ->
  search_refines search value (d - 1) true ->
  forall moves beta minEval acc (st : machine) T,
    heap st !! state = Some s ->
    alpha < beta -> beta <= beta0 -> Z.min beta0 minEval <= beta ->
    minEval <= acc -> (minEval < beta0 -> acc <= minEval) ->
    exhaustiveFold logic Z.min value s moves acc = Some T ->
    exists V st',
      minLoop logic search state d moves alpha beta minEval st = Done V st' /\
      failsoft alpha beta0 V T /\ V <= minEval.
Proof.
  intros Hframes Hsearch.
  induction moves as [|move rest IH];
    intros beta minEval acc st T Hs Hab H0 H1 H2 H3 Hexh; cbn in Hexh.
  - injection Hexh as <-. exists minEval, st. split; [reflexivity|].
    unfold failsoft. lia.
  - destruct (value (applyMove logic s move)) as [t|] eqn:Ht; [|discriminate].
    cbn [minLoop]. unfold bind.
    child_step Hsearch Hframes Hs Ht Hab Hchild Hfs Hh.
    destruct Hfs as (F1 & F2 & F3).
    destruct (Z.min beta v <=? alpha) eqn:Hcut.
    + apply Z.leb_le in Hcut. apply exhaustiveFold_min_le in Hexh.
      eexists _, _. split; [reflexivity|]. unfold failsoft. lia.
    + apply Z.leb_gt in Hcut.
      destruct (IH (Z.min beta v) (Z.min minEval v) (Z.min acc t) (leave st st1) T)
        as (V & st' & Hloop & (G1 & G2 & G3) & Hle); try lia; try assumption.
      { rewrite (leave_lookup _ _ _ _ Hh). exact Hs. }
      exists V, st'. split; [exact Hloop|]. unfold failsoft. lia.
Qed.

Lemma minimax_refines fuel : forall d mp (st : machine) l s alpha beta t,
  exh fuel d mp s = Some t -> heap st !! l = Some s -> alpha < beta ->
  exists v st',
    ab fuel l d alpha beta mp st = Done v st' /\
    failsoft alpha beta v t /\ node_bound mp v t.
Proof.
  induction fuel as [|fuel IH]; intros d mp st l s alpha beta t Hexh Hs Hab.
  - discriminate.
  - cbn [exhaustive] in Hexh. rewrite (minimax_eq _ _ _ s) by assumption.
    destruct (d =? 0) eqn:Hd; cbn [orb] in Hexh.
    { injection Hexh as <-. eexists _, _. split; [reflexivity|].
      unfold failsoft, node_bound. split; [lia | now left]. }
    destruct (isTerminal logic s).
    { injection Hexh as <-. eexists _, _. split; [reflexivity|].
      unfold failsoft, node_bound. split; [lia | now left]. }
    cbv zeta.
    assert (Hsub : forall mp', search_refines (ab fuel) (exh fuel (d - 1) mp') (d - 1) mp').
    { intros mp' st0 l0 s0 a0 b0 t0 H1 H2 H3.
      destruct (IH _ _ _ _ _ _ _ _ H1 H2 H3) as (v & st' & Hrun & Hfs & _). eauto. }
    destruct mp.
    + destruct (maxLoop_refines (ab fuel) _ l s d alpha beta
                  (minimax_run fuel (d - 1)) (Hsub false)
                  (generateMoves logic s MaxMoves) alpha (-32000) (-32000)
                  (entered st l d alpha beta true [EvIsTerminal l; EvGenerateMoves l MaxMoves]) t)
        as (V & st' & Hloop & Hfs & Hle); try lia; try assumption.
      exists V, st'. split; [exact Hloop|]. split; [exact Hfs|].
      right. apply exhaustiveFold_max_ge in Hexh. lia.
    + destruct (minLoop_refines (ab fuel) _ l s d alpha beta
                  (minimax_run fuel (d - 1)) (Hsub true)
                  (generateMoves logic s MaxMoves) beta 32000 32000
                  (entered st l d alpha beta false [EvIsTerminal l; EvGenerateMoves l MaxMoves]) t)
        as (V & st' & Hloop & Hfs & Hle); try lia; try assumption.
      exists V, st'. split; [exact Hloop|]. split; [exact Hfs|].
      right. apply exhaustiveFold_min_le in Hexh. lia.
Qed.

(** Exhaustive search returns as soon as the fuel covers the depth. *)
Lemma exhaustiveFold_total pick value s :
  (forall s', exists t, value s' = Some t) ->
  forall moves acc, exists T, exhaustiveFold logic pick value s moves acc = Some T.
Proof.
  intros Hv. induction moves as [|move rest IH]; intros acc; cbn.
  - eauto.
  - destruct (Hv (applyMove logic s move)) as [t ->]. apply IH.
Qed.

Lemma exhaustive_total fuel : forall d mp s,
  0 <= d < Z.of_nat fuel -> exists t, exh fuel d mp s = Some t.
Proof.
  induction fuel as [|fuel IH]; intros d mp s Hd; [lia|].
  cbn [exhaustive]. destruct (d =? 0) eqn:H0; cbn [orb]; [eauto|].
  apply Z.eqb_neq in H0.
  destruct (isTerminal logic s); [eauto|].
  destruct mp; apply exhaustiveFold_total; intros s'; apply IH; lia.
Qed.

(** ** The value of a search depends on the position only *)

Lemma searchChild_indep (search : search_fn) d state1 state2 s move alpha beta mp
    (st1 st2 : machine) :
  search_indep search d ->
  heap st1 !! state1 = Some s -> heap st2 !! state2 = Some s ->
  agree (searchChild logic search state1 move d alpha beta mp st1)
        (searchChild logic search state2 move d alpha beta mp st2).
Proof.
  intros Hind H1 H2.
  rewrite (searchChild_eq _ _ _ _ _ _ _ _ _ H1), (searchChild_eq _ _ _ _ _ _ _ _ _ H2).
  specialize (Hind _ _ _ _ _ alpha beta mp
                (enter_lookup st1 state1 s move) (enter_lookup st2 state2 s move)).
  destruct (search _ _ _ _ _ (enter logic st1 _ _ _));
    destruct (search _ _ _ _ _ (enter logic st2 _ _ _)); exact Hind.
Qed.

Lemma searchChild_lookup (search : search_fn) d state s move alpha beta mp
    (st : machine) v st' :
  search_frames search d ->
  heap st !! state = Some s ->
  searchChild logic search state move d alpha beta mp st = Done v st' ->
  heap st' !! state = Some s.
Proof.
  intros Hframes Hs Hrun.
  apply (searchChild_run _ _ _ _ _ _ _ _ _ _ Hframes) in Hrun as [[Hh _] _].
  now rewrite Hh.
Qed.

Lemma maxLoop_indep (search : search_fn) d state1 state2 s :
  search_frames search (d - 1) -> search_indep search (d - 1) ->
  forall moves alpha beta maxEval (st1 st2 : machine),
    heap st1 !! state1 = Some s -> heap st2 !! state2 = Some s ->
    agree (maxLoop logic search state1 d moves alpha beta maxEval st1)
          (maxLoop logic search state2 d moves alpha beta maxEval st2).
Proof.
  intros Hframes Hind.
  induction moves as [|move rest IH]; intros alpha beta maxEval st1 st2 H1 H2.
  - reflexivity.
  - cbn [maxLoop]. unfold bind.
    pose proof (searchChild_indep search (d - 1) _ _ s move alpha beta false
                  st1 st2 Hind H1 H2) as Hag.
    destruct (searchChild _ _ state1 _ _ _ _ _ st1) as [v1 st1'| |] eqn:E1;
      destruct (searchChild _ _ state2 _ _ _ _ _ st2) as [v2 st2'| |] eqn:E2;
      try exact Hag; try (exfalso; exact Hag).
    cbn in Hag. subst v2.
    destruct (beta <=? Z.max alpha v1); [reflexivity|].
    apply IH; eapply searchChild_lookup; eauto.
Qed.

Lemma minLoop_indep (search : search_fn) d state1 state2 s :
  search_frames search (d - 1) -> search_indep search (d - 1) ->
  forall moves alpha beta minEval (st1 st2 : machine),
    heap st1 !! state1 = Some s -> heap st2 !! state2 = Some s ->
    agree (minLoop logic search state1 d moves alpha beta minEval st1)
          (minLoop logic search state2 d moves alpha beta minEval st2).
Proof.
  intros Hframes Hind.
  induction moves as [|move rest IH]; intros alpha beta minEval st1 st2 H1 H2.
  - reflexivity.
  - cbn [minLoop]. unfold bind.
    pose proof (searchChild_indep search (d - 1) _ _ s move alpha beta true
                  st1 st2 Hind H1 H2) as Hag.
    destruct (searchChild _ _ state1 _ _ _ _ _ st1) as [v1 st1'| |] eqn:E1;
      destruct (searchChild _ _ state2 _ _ _ _ _ st2) as [v2 st2'| |] eqn:E2;
      try exact Hag; try (exfalso; exact Hag).
    cbn in Hag. subst v2.
    destruct (Z.min beta v1 <=? alpha); [reflexivity|].
    apply IH; eapply searchChild_lookup; eauto.
Qed.

Lemma minimax_indep fuel : forall d, search_indep (ab fuel) d.
Proof.
  induction fuel as [|fuel IH]; intros d st1 st2 l1 l2 s alpha beta mp H1 H2.
  - exact I.
  - rewrite (minimax_eq _ _ _ s) by assumption.
    rewrite (minimax_eq _ st2 _ s) by assumption.
    destruct (d =? 0); [reflexivity|].
    destruct (isTerminal logic s); [reflexivity|].
    cbv zeta. destruct mp.
    + apply (maxLoop_indep _ _ _ _ s (minimax_run fuel (d - 1)) (IH (d - 1))); assumption.
    + apply (minLoop_indep _ _ _ _ s (minimax_run fuel (d - 1)) (IH (d - 1))); assumption.
Qed.

(** The score of a root move, read off any machine that holds the
    position. *)
Lemma rootScore_eq fuel (st : machine) state s isMax move v st' :
  heap st !! state = Some s ->
  searchChild logic (ab fuel) state move (MaxDepth - 1) (-32000) 32000 (negb isMax) st
    = Done v st' ->
  rootScore MaxMoves MaxDepth logic fuel s isMax move = Some v.
Proof.
  intros Hs Hrun. unfold rootScore.
  pose proof (searchChild_indep (ab fuel) (MaxDepth - 1) state 0%nat s move
                (-32000) 32000 (negb isMax) st (Machine [s] 0 0 [])
                (minimax_indep fuel _) Hs eq_refl) as Hag.
  rewrite Hrun in Hag.
  destruct (searchChild _ _ 0%nat _ _ _ _ _ _); cbn in Hag; try contradiction.
  now subst.
Qed.

(** ** The root operation *)

Abbreviation score_of fuel s isMax := (rootScore MaxMoves MaxDepth logic fuel s isMax).

Lemma findBestMove_eq fuel (st : machine) state s :
  heap st !! state = Some s ->
  find fuel state st =
  let moves := generateMoves logic s MaxMoves in
  if Z.of_nat (length moves) =? 0 then Done Move_default (root_empty MaxMoves st state)
  else
    root fuel state (isMaximizingPlayer logic s) moves Move_default
      (root_start MaxMoves st state (isMaximizingPlayer logic s)).
Proof.
  intros Hs. unfold findBestMove.
  unfold bind at 1. unfold logic_generateMoves, bind, deref, emit, ret.
  cbn [heap _bestScore _nodesSearched trace]. rewrite Hs.
  cbn [heap _bestScore _nodesSearched trace]. cbv zeta.
  destruct (Z.of_nat (length (generateMoves logic s MaxMoves)) =? 0); [reflexivity|].
  unfold logic_isMaximizingPlayer, bind, deref, emit, ret, set_bestScore, set_nodesSearched.
  cbn [heap _bestScore _nodesSearched trace]. rewrite Hs.
  cbn [heap _bestScore _nodesSearched trace].
  unfold root_start, sentinel. rewrite <- app_assoc. reflexivity.
Qed.

Lemma findBestMove_dangling fuel (st : machine) state :
  heap st !! state = None -> find fuel state st = Fault.
Proof.
  intros Hs. unfold findBestMove, bind, logic_generateMoves, bind, deref.
  rewrite Hs. reflexivity.
Qed.

(** One iteration of the root loop. *)
Lemma rootLoop_cons fuel state isMax move rest bestMove (st : machine) :
  root fuel state isMax (move :: rest) bestMove st =
  match searchChild logic (ab fuel) state move (MaxDepth - 1) (-32000) 32000
          (negb isMax) st with
  | Done score st1 =>
      if (if isMax then score >? _bestScore st1 else score <? _bestScore st1) then
        root fuel state isMax rest move
          (Machine (heap st1) score (_nodesSearched st1) (trace st1))
      else root fuel state isMax rest bestMove st1
  | Diverge => Diverge
  | Fault => Fault
  end.
Proof.
  cbn [rootLoop]. unfold bind at 1.
  destruct (searchChild _ _ _ _ _ _ _ _ st) as [score st1| |]; try reflexivity.
  unfold bind, get_bestScore, set_bestScore.
  destruct isMax; [destruct (score >? _) | destruct (score <? _)]; reflexivity.
Qed.

Lemma extends_set_bestScore d (st st1 : machine) v :
  extends d st st1 ->
  extends d st (Machine (heap st1) v (_nodesSearched st1) (trace st1)).
Proof. intros H. exact H. Qed.

Lemma rootLoop_run fuel state isMax : forall moves bestMove (st : machine) mv st',
  root fuel state isMax moves bestMove st = Done mv st' ->
  extends (MaxDepth - 1) st st'.
Proof.
  induction moves as [|move rest IH]; intros bestMove st mv st' Hrun.
  - injection Hrun as <- <-. apply extends_refl.
  - rewrite rootLoop_cons in Hrun.
    destruct (searchChild _ _ _ _ _ _ _ _ st) as [score st1| |] eqn:Hchild; try discriminate.
    apply (searchChild_run _ _ _ _ _ _ _ _ _ _ (minimax_run fuel _)) in Hchild as [Hext _].
    destruct (if isMax then _ else _); apply IH in Hrun.
    + eapply extends_trans; [|exact Hrun]. now apply extends_set_bestScore.
    + eapply extends_trans; eauto.
Qed.

Lemma rootLoop_levels fuel state isMax : forall moves bestMove (st : machine) mv st',
  root fuel state isMax moves bestMove st = Done mv st' ->
  exists evs, trace st' = trace st ++ evs /\ levels (length (heap st)) (MaxDepth - 1) evs.
Proof.
  induction moves as [|move rest IH]; intros bestMove st mv st' Hrun.
  - injection Hrun as <- <-. exists []. split; [now rewrite app_nil_r | constructor].
  - rewrite rootLoop_cons in Hrun.
    destruct (searchChild _ _ _ _ _ _ _ _ st) as [score st1| |] eqn:Hchild; try discriminate.
    destruct (searchChild_run _ _ _ _ _ _ _ _ _ _ (minimax_run fuel _) Hchild) as [[Hh _] _].
    apply (searchChild_levels _ _ _ _ _ _ _ _ _ _ (minimax_levels fuel _)) in Hchild
      as (e1 & Ht1 & Hl1).
    destruct (if isMax then _ else _); apply IH in Hrun as (e2 & Ht2 & Hl2);
      cbn [heap trace] in Ht2, Hl2; rewrite Hh in Hl2;
      exists (e1 ++ e2); (split; [now rewrite Ht2, Ht1, app_assoc|]);
      apply Forall_app; auto.
Qed.

(** The root loop against the exhaustive root loop. *)
Lemma rootLoop_refines fuel state s isMax : forall moves bestMove best (st : machine) r,
  heap st !! state = Some s ->
  _bestScore st = best ->
  ~ improves isMax (sentinel isMax) best ->
  exhaustiveRootLoop MaxMoves MaxDepth logic fuel s isMax moves (bestMove, best) = Some r ->
  exists st',
    root fuel state isMax moves bestMove st = Done (fst r) st' /\
    _bestScore st' = snd r.
Proof.
  induction moves as [|move rest IH]; intros bestMove best st r Hs Hb Hsent Hexh;
    cbn [exhaustiveRootLoop] in Hexh.
  - injection Hexh as <-. exists st. split; [reflexivity | exact Hb].
  - destruct (exh fuel (MaxDepth - 1) (negb isMax) (applyMove logic s move))
      as [t|] eqn:Ht; [|discriminate].
    rewrite rootLoop_cons.
    rewrite (searchChild_eq _ _ _ _ _ _ _ _ _ Hs).
    destruct (minimax_refines fuel _ _ (enter logic st state s move) (length (heap st))
                _ (-32000) 32000 _ Ht (enter_lookup st state s move) ltac:(lia))
      as (v & st1 & Hchild & (F1 & F2 & F3) & Hnb).
    rewrite Hchild.
    destruct (minimax_run fuel _ _ _ _ _ _ _ _ Hchild) as [[Hh _] Hb1].
    cbn [enter heap _bestScore] in Hh, Hb1.
    cbn [leave _bestScore heap _nodesSearched trace snd] in *.
    rewrite Hb1, Hb.
    assert (Hsame : (if isMax then v >? best else v <? best)
                    = (if isMax then t >? best else t <? best) /\
                    ((if isMax then v >? best else v <? best) = true -> v = t)).
    { unfold improves, sentinel, node_bound in *.
      destruct isMax; cbn [negb] in Hnb; split;
        try (intros Hgt; first [apply Z.gtb_lt in Hgt | apply Z.ltb_lt in Hgt]; lia).
      - rewrite !Z.gtb_ltb. destruct (Z.ltb_spec best v), (Z.ltb_spec best t); lia.
      - destruct (Z.ltb_spec v best), (Z.ltb_spec t best); lia. }
    destruct Hsame as [Hcmp Hval]. rewrite <- Hcmp in Hexh.
    destruct (if isMax then v >? best else v <? best) eqn:Hbetter.
    + specialize (Hval eq_refl). subst t.
      apply (IH move v); try assumption; try reflexivity.
      * cbn [heap]. rewrite Hh, take_app_length. exact Hs.
      * unfold improves, sentinel in *.
        destruct isMax; [apply Z.gtb_lt in Hbetter | apply Z.ltb_lt in Hbetter]; lia.
    + apply (IH bestMove best); try assumption.
      * rewrite (leave_lookup _ _ _ _ Hh). exact Hs.
      * unfold leave. cbn [_bestScore]. congruence.
Qed.

Lemma exhaustiveRootLoop_total fuel s isMax :
  (forall s', exists t, exh fuel (MaxDepth - 1) (negb isMax) s' = Some t) ->
  forall moves best,
    exists r, exhaustiveRootLoop MaxMoves MaxDepth logic fuel s isMax moves best = Some r.
Proof.
  intros Hv. induction moves as [|move rest IH]; intros best; cbn.
  - eauto.
  - destruct (Hv (applyMove logic s move)) as [t ->]. apply IH.
Qed.

Lemma exhaustiveRoot_total fuel s previous :
  1 <= MaxDepth -> (Z.to_nat MaxDepth <= fuel)%nat ->
  exists r, exhaustiveRoot Move_default MaxMoves MaxDepth logic fuel s previous = Some r.
Proof.
  intros Hd Hf. unfold exhaustiveRoot. cbv zeta.
  destruct (_ =? 0); [eauto|].
  apply exhaustiveRootLoop_total. intros s'. apply exhaustive_total. lia.
Qed.

Lemma findBestMove_refines fuel (st : machine) state s r :
  heap st !! state = Some s ->
  exhaustiveRoot Move_default MaxMoves MaxDepth logic fuel s (_bestScore st) = Some r ->
  exists st', find fuel state st = Done (fst r) st' /\ getBestScore st' = snd r.
Proof.
  intros Hs Hexh. rewrite (findBestMove_eq _ _ _ s Hs). cbv zeta.
  unfold exhaustiveRoot in Hexh. cbv zeta in Hexh.
  destruct (_ =? 0).
  - injection Hexh as <-. eexists. split; reflexivity.
  - eapply rootLoop_refines in Hexh as (st' & Hrun & Hb); eauto.
    unfold improves, sentinel. destruct (isMaximizingPlayer logic s); lia.
Qed.

Lemma findBestMove_returns fuel (st : machine) state s :
  1 <= MaxDepth -> (Z.to_nat MaxDepth <= fuel)%nat ->
  heap st !! state = Some s ->
  exists mv st', find fuel state st = Done mv st'.
Proof.
  intros Hd Hf Hs.
  destruct (exhaustiveRoot_total fuel s (_bestScore st) Hd Hf) as [r Hr].
  destruct (findBestMove_refines _ _ _ _ _ Hs Hr) as (st' & Hrun & _). eauto.
Qed.

(** The selection the root loop makes, in terms of the scores of the root
    moves. *)
Lemma selects_nil isMax score :
  selects Move_default isMax score [] (sentinel isMax) Move_default.
Proof.
  split; [|now left]. intros j mj Hj. rewrite lookup_nil in Hj. discriminate.
Qed.

Lemma selects_keep isMax score pre best bestMove move v :
  selects Move_default isMax score pre best bestMove ->
  score move = Some v -> ~ improves isMax v best ->
  selects Move_default isMax score (pre ++ [move]) best bestMove.
Proof.
  intros [Hall Hsel] Hv Hno. split.
  - intros j mj Hj. apply lookup_app_Some in Hj as [Hj | [_ Hj]]; [eauto|].
    apply list_lookup_singleton_Some in Hj as [_ <-]. eauto.
  - destruct Hsel as [Hsel | (Himp & i & Hi & Hsc & Hfirst)]; [now left|].
    right. split; [exact Himp|]. exists i. split; [now apply lookup_app_l_Some|].
    split; [exact Hsc|]. intros j mj sj Hji Hj. apply (Hfirst j mj sj Hji).
    rewrite lookup_app_l in Hj; [exact Hj|]. apply lookup_lt_Some in Hi. lia.
Qed.

Lemma selects_take isMax score pre best bestMove move v :
  selects Move_default isMax score pre best bestMove ->
  score move = Some v -> improves isMax v best ->
  selects Move_default isMax score (pre ++ [move]) v move.
Proof.
  intros [Hall Hsel] Hv Hyes.
  assert (Hbest : ~ improves isMax (sentinel isMax) best).
  { destruct Hsel as [[-> _] | [Himp _]]; unfold improves, sentinel in *;
      destruct isMax; lia. }
  split.
  - intros j mj Hj. apply lookup_app_Some in Hj as [Hj | [_ Hj]].
    + destruct (Hall j mj Hj) as (sj & Hsj & Hno). exists sj. split; [exact Hsj|].
      unfold improves in *. destruct isMax; lia.
    + apply list_lookup_singleton_Some in Hj as [_ <-]. exists v. split; [exact Hv|].
      unfold improves. destruct isMax; lia.
  - right. split.
    { unfold improves, sentinel in *. destruct isMax; lia. }
    exists (length pre). split; [now apply list_lookup_middle|]. split; [exact Hv|].
    intros j mj sj Hj Hlook Hsj.
    rewrite lookup_app_l in Hlook by exact Hj.
    destruct (Hall j mj Hlook) as (sj' & Hsj' & Hno).
    assert (sj' = sj) by congruence. subst sj'.
    unfold improves in *. destruct isMax; lia.
Qed.

Lemma rootLoop_selects fuel state s isMax :
  forall rest pre bestMove (st : machine) mv st',
    heap st !! state = Some s ->
    selects Move_default isMax (score_of fuel s isMax) pre (_bestScore st) bestMove ->
    root fuel state isMax rest bestMove st = Done mv st' ->
    selects Move_default isMax (score_of fuel s isMax) (pre ++ rest) (_bestScore st') mv.
Proof.
  induction rest as [|move rest IH]; intros pre bestMove st mv st' Hs Hsel Hrun.
  - injection Hrun as <- <-. now rewrite app_nil_r.
  - rewrite rootLoop_cons in Hrun.
    destruct (searchChild _ _ _ _ _ _ _ _ st) as [v st1| |] eqn:Hchild; try discriminate.
    pose proof (rootScore_eq _ _ _ _ _ _ _ _ Hs Hchild) as Hv.
    pose proof (searchChild_lookup _ _ _ _ _ _ _ _ _ _ _ (minimax_run fuel _) Hs Hchild) as Hs1.
    apply (searchChild_run _ _ _ _ _ _ _ _ _ _ (minimax_run fuel _)) in Hchild as [_ Hb].
    rewrite Hb in Hrun.
    replace (pre ++ move :: rest) with ((pre ++ [move]) ++ rest)
      by (rewrite <- app_assoc; reflexivity).
    destruct (if isMax then _ else _) eqn:Hbetter.
    + eapply IH in Hrun; [exact Hrun | exact Hs1 |]. cbn [_bestScore].
      eapply selects_take; eauto.
      unfold improves. destruct isMax;
        [apply Z.gtb_lt in Hbetter | apply Z.ltb_lt in Hbetter]; lia.
    + eapply IH in Hrun; [exact Hrun | exact Hs1 |]. rewrite Hb.
      eapply selects_keep; eauto.
      unfold improves. destruct isMax;
        [rewrite Z.gtb_ltb in Hbetter|]; apply Z.ltb_ge in Hbetter; lia.
Qed.

Lemma findBestMove_selects fuel (st : machine) state s mv st' :
  heap st !! state = Some s ->
  generateMoves logic s MaxMoves <> [] ->
  find fuel state st = Done mv st' ->
  selects Move_default (isMaximizingPlayer logic s)
    (score_of fuel s (isMaximizingPlayer logic s))
    (generateMoves logic s MaxMoves) (getBestScore st') mv.
Proof.
  intros Hs Hmoves Hrun. rewrite (findBestMove_eq _ _ _ s Hs) in Hrun. cbv zeta in Hrun.
  destruct (_ =? 0) eqn:Hz.
  { apply Z.eqb_eq in Hz. destruct (generateMoves logic s MaxMoves); [congruence|].
    cbn in Hz. lia. }
  exact (rootLoop_selects fuel state s _ _ [] Move_default
           (root_start MaxMoves st state (isMaximizingPlayer logic s)) mv st'
           Hs (selects_nil _ _) Hrun).
Qed.

(** ** More fuel changes nothing *)

Lemma searchChild_fuel (search search' : search_fn) state move d alpha beta mp
    (st : machine) v st' :
  (forall l a b (m : machine) v m',
     search l d a b mp m = Done v m' -> search' l d a b mp m = Done v m') ->
  searchChild logic search state move d alpha beta mp st = Done v st' ->
  searchChild logic search' state move d alpha beta mp st = Done v st'.
Proof.
  intros Hmono Hrun. unfold searchChild, bind in *.
  destruct (copyState state st) as [newState m1| |]; try discriminate.
  destruct (logic_applyMove logic newState move m1) as [[] m2| |]; try discriminate.
  destruct (search newState d alpha beta mp m2) as [e m3| |] eqn:E; try discriminate.
  now rewrite (Hmono _ _ _ _ _ _ E).
Qed.

Lemma minimax_fuel fuel : forall l d alpha beta mp (st : machine) v st',
  ab fuel l d alpha beta mp st = Done v st' ->
  ab (S fuel) l d alpha beta mp st = Done v st'.
Proof.
  induction fuel as [|fuel IH]; intros l d alpha beta mp st v st' Hrun; [discriminate|].
  destruct (heap st !! l) as [s|] eqn:Hs.
  2:{ rewrite minimax_dangling in Hrun by assumption. discriminate. }
  rewrite (minimax_eq _ _ _ s) in Hrun by assumption.
  rewrite (minimax_eq _ _ _ s) by assumption.
  destruct (d =? 0); [exact Hrun|].
  destruct (isTerminal logic s); [exact Hrun|].
  cbv zeta in *. revert Hrun.
  assert (IH' : forall d' mp' l' a b (m : machine) v' m',
             ab fuel l' d' a b mp' m = Done v' m' -> ab (S fuel) l' d' a b mp' m = Done v' m')
    by (intros; now apply IH).
  generalize (entered st l d alpha beta mp [EvIsTerminal l; EvGenerateMoves l MaxMoves]).
  destruct mp.
  - generalize (-32000). revert alpha beta.
    induction (generateMoves logic s MaxMoves) as [|move rest IHm];
      intros alpha beta maxEval m Hrun; [exact Hrun|].
    cbn [maxLoop] in *. unfold bind in *.
    destruct (searchChild _ (ab fuel) _ _ _ _ _ _ m) as [e m1| |] eqn:E; try discriminate.
    rewrite (searchChild_fuel _ (ab (S fuel)) _ _ _ _ _ _ _ _ _ (IH' _ _) E).
    destruct (beta <=? Z.max alpha e); [exact Hrun | now apply IHm].
  - generalize 32000. revert alpha beta.
    induction (generateMoves logic s MaxMoves) as [|move rest IHm];
      intros alpha beta minEval m Hrun; [exact Hrun|].
    cbn [minLoop] in *. unfold bind in *.
    destruct (searchChild _ (ab fuel) _ _ _ _ _ _ m) as [e m1| |] eqn:E; try discriminate.
    rewrite (searchChild_fuel _ (ab (S fuel)) _ _ _ _ _ _ _ _ _ (IH' _ _) E).
    destruct (Z.min beta e <=? alpha); [exact Hrun | now apply IHm].
Qed.

Lemma minimax_more_fuel fuel fuel' l d alpha beta mp (st : machine) v st' :
  (fuel <= fuel')%nat ->
  ab fuel l d alpha beta mp st = Done v st' ->
  ab fuel' l d alpha beta mp st = Done v st'.
Proof.
  intros Hle Hrun. induction Hle as [|n _ IH]; [exact Hrun|].
  now apply minimax_fuel.
Qed.

Lemma findBestMove_more_fuel fuel fuel' state (st : machine) mv st' :
  (fuel <= fuel')%nat ->
  find fuel state st = Done mv st' -> find fuel' state st = Done mv st'.
Proof.
  intros Hle Hrun.
  destruct (heap st !! state) as [s|] eqn:Hs.
  2:{ rewrite findBestMove_dangling in Hrun by assumption. discriminate. }
  rewrite (findBestMove_eq _ _ _ s Hs) in Hrun.
  rewrite (findBestMove_eq _ _ _ s Hs). cbv zeta in *.
  destruct (_ =? 0); [exact Hrun|]. revert Hrun.
  assert (Hmore : forall d' mp' l' a b (m : machine) v' m',
             ab fuel l' d' a b mp' m = Done v' m' -> ab fuel' l' d' a b mp' m = Done v' m')
    by (intros; eapply minimax_more_fuel; eauto).
  generalize (root_start MaxMoves st state (isMaximizingPlayer logic s)).
  generalize Move_default.
  induction (generateMoves logic s MaxMoves) as [|move rest IHm];
    intros bestMove m Hrun; [exact Hrun|].
  rewrite rootLoop_cons in *.
  destruct (searchChild _ (ab fuel) _ _ _ _ _ _ m) as [e m1| |] eqn:E; try discriminate.
  rewrite (searchChild_fuel _ (ab fuel') _ _ _ _ _ _ _ _ _ (Hmore _ _) E).
  destruct (if isMaximizingPlayer logic s then _ else _); now apply IHm.
Qed.

(** ** The properties the specification states *)

(** C1. For every capability, root state and depth bound, the move that
    [findBestMove] returns and the score that [getBestScore] then reports
    are the move and score of exhaustive depth-bounded minimax on the same
    state: whenever the exhaustive root procedure yields [(move, score)],
    so does the pruned one, on the same stack budget; and for a depth bound
    of at least 1 the exhaustive procedure does yield a result as soon as
    the budget covers the depth. *)
Theorem C1_pruning_keeps_root_outcome fuel (st : machine) state s :
  heap st !! state = Some s ->
  (forall move score,
     exhaustiveRoot Move_default MaxMoves MaxDepth logic fuel s (_bestScore st)
       = Some (move, score) ->
     exists st',
       findBestMove Move_default MaxMoves MaxDepth logic fuel state st = Done move st' /\
       getBestScore st' = score) /\
  (1 <= MaxDepth -> (Z.to_nat MaxDepth <= fuel)%nat ->
   exists move score,
     exhaustiveRoot Move_default MaxMoves MaxDepth logic fuel s (_bestScore st)
       = Some (move, score)).
Proof.
  intros Hs. split.
  - intros move score Hexh.
    destruct (findBestMove_refines _ _ _ _ _ Hs Hexh) as (st' & Hrun & Hb). eauto.
  - intros Hd Hf.
    destruct (exhaustiveRoot_total fuel s (_bestScore st) Hd Hf) as [[move score] Hr]. eauto.
Qed.

(** C2, amended. When [generateMoves] returns 0 at the root, [findBestMove]
    returns the default move and leaves the best score, the node counter
    and the store as they were before the call: [getBestScore] reads the
    value of an earlier call, not a sentinel. *)
Theorem C2_no_move_leaves_fields fuel (st : machine) state s :
  heap st !! state = Some s ->
  generateMoves logic s MaxMoves = [] ->
  exists st',
    findBestMove Move_default MaxMoves MaxDepth logic fuel state st = Done Move_default st' /\
    getBestScore st' = getBestScore st /\
    getNodesSearched st' = getNodesSearched st /\
    heap st' = heap st /\
    trace st' = trace st ++ [EvGenerateMoves state MaxMoves].
Proof.
  intros Hs Hnone. rewrite (findBestMove_eq _ _ _ s Hs). cbv zeta. rewrite Hnone.
  cbn [length Z.of_nat Z.eqb]. eexists. split; [reflexivity|]. repeat split.
Qed.

(** C3, amended. After a root call at which [generateMoves] returned at
    least one move, [getNodesSearched] is exactly the number of invocations
    of [minimax] logged during that call, whatever the counter held before,
    as long as that number does not exceed [INT_MAX], the largest [int] of
    the platform (32767 where [int] has 16 bits; the constant comes from
    the platform, not from the source, and is a parameter here): the
    counter is reset to 0, no increment overflows, and the value read lies
    between 0 and [INT_MAX].  The calls of the root into the capability are
    not counted.  A root call at which [generateMoves] returned 0 makes no
    invocation and leaves the counter as it was.  The call returns for
    every depth bound of at least 1. *)
Theorem C3_node_count (INT_MAX : Z) fuel (st : machine) state s :
  heap st !! state = Some s ->
  (forall move st',
     findBestMove Move_default MaxMoves MaxDepth logic fuel state st = Done move st' ->
     exists evs,
       trace st' = trace st ++ evs /\
       (generateMoves logic s MaxMoves <> [] ->
        invocations evs <= INT_MAX ->
        getNodesSearched st' = invocations evs /\ 0 <= getNodesSearched st' <= INT_MAX) /\
       (generateMoves logic s MaxMoves = [] ->
        getNodesSearched st' = getNodesSearched st /\ invocations evs = 0)) /\
  (1 <= MaxDepth -> (Z.to_nat MaxDepth <= fuel)%nat ->
   exists move st',
     findBestMove Move_default MaxMoves MaxDepth logic fuel state st = Done move st').
Proof.
  intros Hs. split; [|intros Hd Hf; eapply findBestMove_returns; eauto].
  intros move st' Hrun.
  rewrite (findBestMove_eq _ _ _ s Hs) in Hrun. cbv zeta in Hrun.
  destruct (_ =? 0) eqn:Hz.
  - injection Hrun as <- <-. exists [EvGenerateMoves state MaxMoves].
    split; [reflexivity|]. split.
    + intros Hne. apply Z.eqb_eq in Hz.
      destruct (generateMoves logic s MaxMoves); [congruence | cbn in Hz; lia].
    + intros _. split; reflexivity.
  - apply rootLoop_run in Hrun as (_ & evs & Ht & Hn & _).
    cbn [root_start heap _nodesSearched trace] in *.
    exists ([EvGenerateMoves state MaxMoves; EvIsMaximizingPlayer state] ++ evs).
    split; [now rewrite Ht, <- app_assoc|]. split.
    + intros _. unfold getNodesSearched. rewrite Hn. cbn [app].
      rewrite !invocations_cons. cbn [is_minimax]. unfold invocations. lia.
    + intros Hnil. rewrite Hnil in Hz. discriminate.
Qed.

(** C4, amended. When the root has at least one move and the best score
    strictly improves on the initial sentinel, [findBestMove] returns the
    move at the first index, in generation order, whose score is the best
    score: no score improves on it, and no earlier move reaches it.  The
    call returns for every depth bound of at least 1. *)
Theorem C4_earliest_best_move fuel (st : machine) state s :
  heap st !! state = Some s ->
  generateMoves logic s MaxMoves <> [] ->
  let moves := generateMoves logic s MaxMoves in
  let isMax := isMaximizingPlayer logic s in
  (forall move st',
     findBestMove Move_default MaxMoves MaxDepth logic fuel state st = Done move st' ->
     improves isMax (getBestScore st') (sentinel isMax) ->
     exists i,
       moves !! i = Some move /\
       rootScore MaxMoves MaxDepth logic fuel s isMax move = Some (getBestScore st') /\
       forall j mj, moves !! j = Some mj ->
         exists sj,
           rootScore MaxMoves MaxDepth logic fuel s isMax mj = Some sj /\
           ~ improves isMax sj (getBestScore st') /\
           ((j < i)%nat -> sj <> getBestScore st')) /\
  (1 <= MaxDepth -> (Z.to_nat MaxDepth <= fuel)%nat ->
   exists move st',
     findBestMove Move_default MaxMoves MaxDepth logic fuel state st = Done move st').
Proof.
  intros Hs Hmoves moves isMax. split.
  - intros move st' Hrun Himp.
    destruct (findBestMove_selects _ _ _ _ _ _ Hs Hmoves Hrun) as [Hall Hsel].
    fold moves isMax in Hall, Hsel.
    destruct Hsel as [[Hb _] | (_ & i & Hi & Hsc & Hfirst)].
    { exfalso. rewrite Hb in Himp. unfold improves in Himp. destruct isMax; lia. }
    exists i. split; [exact Hi|]. split; [exact Hsc|].
    intros j mj Hj. destruct (Hall j mj Hj) as (sj & Hsj & Hno).
    exists sj. split; [exact Hsj|]. split; [exact Hno|]. intros Hji. eauto.
  - intros Hd Hf. eapply findBestMove_returns; eauto.
Qed.

(** C5. At a node, once the window closes after a child ([beta <= alpha]
    with the child's score taken in), the loop is over: the node returns
    the running extreme, and the machine, its log included, is the one the
    search of that child left, whatever moves remain.  Since the loop was
    entered the log has grown by one copy of the node's state, one
    [applyMove] on that copy, one search of it, and events on cells above
    the copy, inside the subtree of that child: nothing is copied, applied
    or searched for the remaining moves. *)
Theorem C5_cutoff_skips_siblings fuel (st : machine) state depth move rest alpha beta :
  (forall maxEval eval st1,
     searchChild logic (minimax MaxMoves logic fuel) state move (depth - 1) alpha beta false st
       = Done eval st1 ->
     beta <= Z.max alpha eval ->
     maxLoop logic (minimax MaxMoves logic fuel) state depth (move :: rest) alpha beta maxEval st
       = Done (Z.max maxEval eval) st1 /\
     exists evs,
       trace st1 = trace st ++
         EvCopy state (length (heap st)) :: EvApplyMove (length (heap st)) move ::
         EvMinimax (length (heap st)) (depth - 1) alpha beta false :: evs /\
       writes_above (S (length (heap st))) evs /\
       levels (S (length (heap st))) (depth - 1 - 1) evs) /\
  (forall minEval eval st1,
     searchChild logic (minimax MaxMoves logic fuel) state move (depth - 1) alpha beta true st
       = Done eval st1 ->
     Z.min beta eval <= alpha ->
     minLoop logic (minimax MaxMoves logic fuel) state depth (move :: rest) alpha beta minEval st
       = Done (Z.min minEval eval) st1 /\
     exists evs,
       trace st1 = trace st ++
         EvCopy state (length (heap st)) :: EvApplyMove (length (heap st)) move ::
         EvMinimax (length (heap st)) (depth - 1) alpha beta true :: evs /\
       writes_above (S (length (heap st))) evs /\
       levels (S (length (heap st))) (depth - 1 - 1) evs).
Proof.
  split; intros acc eval st1 Hchild Hcut; (split; [|now apply searchChild_log in Hchild]).
  - cbn [maxLoop]. unfold bind. rewrite Hchild.
    apply Z.leb_le in Hcut. rewrite Hcut. reflexivity.
  - cbn [minLoop]. unfold bind. rewrite Hchild.
    apply Z.leb_le in Hcut. rewrite Hcut. reflexivity.
Qed.

(** C6. An invocation with [depth = 0] or on a terminal state returns
    [evaluate state] as it is, for either value of the maximizing flag; it
    is logged and counted, and the only calls it makes are [isTerminal]
    (when the depth is not 0) and [evaluate]: no move is generated. *)
Theorem C6_base_case fuel (st : machine) state s depth alpha beta mp :
  heap st !! state = Some s ->
  depth = 0 \/ isTerminal logic s = true ->
  exists calls,
    minimax MaxMoves logic (S fuel) state depth alpha beta mp st
      = Done (evaluate logic s) (entered st state depth alpha beta mp calls) /\
    (calls = [EvEvaluate state] \/ calls = [EvIsTerminal state; EvEvaluate state]).
Proof.
  intros Hs Hbase. rewrite (minimax_eq _ _ _ s) by exact Hs.
  destruct (depth =? 0) eqn:Hd.
  - eexists. split; [reflexivity | now left].
  - destruct Hbase as [-> | ->]; [discriminate|].
    eexists. split; [reflexivity | now right].
Qed.

(** C7. On a state that is not terminal, at a depth above 0, where
    [generateMoves] returns 0, the search returns the sentinel of the node
    (-32000 when maximizing, 32000 when minimizing); the calls it makes are
    [isTerminal] and [generateMoves], and [evaluate] is not among them. *)
Theorem C7_no_move_returns_sentinel fuel (st : machine) state s depth alpha beta mp :
  heap st !! state = Some s ->
  0 < depth ->
  isTerminal logic s = false ->
  generateMoves logic s MaxMoves = [] ->
  minimax MaxMoves logic (S fuel) state depth alpha beta mp st
    = Done (if mp then -32000 else 32000)
        (entered st state depth alpha beta mp
           [EvIsTerminal state; EvGenerateMoves state MaxMoves]).
Proof.
  intros Hs Hd Hterm Hnone. rewrite (minimax_eq _ _ _ s) by exact Hs.
  destruct (Z.eqb_spec depth 0); [lia|]. rewrite Hterm. cbv zeta. rewrite Hnone.
  destruct mp; reflexivity.
Qed.

(** C8, amended. For a depth bound of at least 1, a root call returns on a
    stack of [MaxDepth] nested invocations of the search, for every
    capability and root state.  The searches it logs that work on the
    cell just above the caller's store, the ones the root invokes, run at
    depth [MaxDepth - 1]; a search one cell higher, hence nested one level
    deeper, runs one unit lower; and none runs below depth 0, so none is
    nested deeper than [MaxDepth]. *)
Theorem C8_bounded_recursion fuel (st : machine) state s :
  1 <= MaxDepth ->
  (Z.to_nat MaxDepth <= fuel)%nat ->
  heap st !! state = Some s ->
  exists move st' evs,
    findBestMove Move_default MaxMoves MaxDepth logic (Z.to_nat MaxDepth) state st
      = Done move st' /\
    findBestMove Move_default MaxMoves MaxDepth logic fuel state st = Done move st' /\
    trace st' = trace st ++ evs /\
    depths_within 0 (MaxDepth - 1) evs /\
    levels (length (heap st)) (MaxDepth - 1) evs.
Proof.
  intros Hd Hf Hs.
  destruct (findBestMove_returns (Z.to_nat MaxDepth) st state s Hd (le_n _) Hs)
    as (move & st' & Hrun).
  exists move, st'.
  assert (Hevs : exists evs,
             trace st' = trace st ++ evs /\ depths_under (MaxDepth - 1) evs /\
             levels (length (heap st)) (MaxDepth - 1) evs).
  { pose proof Hrun as Hrun'.
    rewrite (findBestMove_eq _ _ _ s Hs) in Hrun'. cbv zeta in Hrun'.
    destruct (_ =? 0).
    - injection Hrun' as <- <-. exists [EvGenerateMoves state MaxMoves].
      split; [reflexivity | split; repeat constructor].
    - destruct (rootLoop_levels _ _ _ _ _ _ _ _ Hrun') as (evs' & Ht' & Hlev).
      apply rootLoop_run in Hrun' as (_ & evs & Ht & _ & _ & _ & Hdep).
      rewrite Ht in Ht'. apply app_inv_head in Ht'. subst evs'.
      cbn [root_start heap trace] in Ht, Hlev.
      exists ([EvGenerateMoves state MaxMoves; EvIsMaximizingPlayer state] ++ evs).
      split; [now rewrite Ht, <- app_assoc|].
      split; apply Forall_app; (split; [repeat constructor | assumption]). }
  destruct Hevs as (evs & Ht & Hdep & Hlev). exists evs.
  split; [exact Hrun|]. split; [eapply findBestMove_more_fuel; eauto|].
  split; [exact Ht|]. split; [|exact Hlev].
  unfold depths_within, depths_under in *.
  eapply Forall_impl; [exact Hdep|]. intros []; auto. unfold depth_ok. lia.
Qed.

(** C9. When a root call returns, the store is the one the caller handed
    over: the state passed to [findBestMove], and every other cell of the
    caller, holds what it held.  Every copy made during the call lands
    above the caller's cells, and every [applyMove] writes to the copy
    made just before it.  The call returns for every depth bound of at
    least 1. *)
Theorem C9_caller_state_untouched fuel (st : machine) state s :
  heap st !! state = Some s ->
  (forall move st',
     findBestMove Move_default MaxMoves MaxDepth logic fuel state st = Done move st' ->
     heap st' = heap st /\
     heap st' !! state = Some s /\
     exists evs,
       trace st' = trace st ++ evs /\
       writes_above (length (heap st)) evs /\
       applies_on_copies evs = true) /\
  (1 <= MaxDepth -> (Z.to_nat MaxDepth <= fuel)%nat ->
   exists move st',
     findBestMove Move_default MaxMoves MaxDepth logic fuel state st = Done move st').
Proof.
  intros Hs. split; [|intros Hd Hf; eapply findBestMove_returns; eauto].
  intros move st' Hrun.
  rewrite (findBestMove_eq _ _ _ s Hs) in Hrun. cbv zeta in Hrun.
  destruct (_ =? 0).
  - injection Hrun as <- <-. cbn [root_empty heap trace].
    split; [reflexivity|]. split; [exact Hs|].
    exists [EvGenerateMoves state MaxMoves]. repeat split. repeat constructor.
  - apply rootLoop_run in Hrun as (Hh & evs & Ht & _ & Hw & Ha & _).
    cbn [root_start heap trace] in *.
    split; [exact Hh|]. split; [now rewrite Hh|].
    exists ([EvGenerateMoves state MaxMoves; EvIsMaximizingPlayer state] ++ evs).
    split; [now rewrite Ht, <- app_assoc|]. split.
    + apply Forall_app. split; [repeat constructor | exact Hw].
    + exact Ha.
Qed.

(** C10. A root with legal moves can still get the default move back: when
    the root player maximizes and no root move scores above -32000 (or
    minimizes and none scores below 32000), the strict comparison never
    fires, [findBestMove] returns the default move and the best score stays
    at the sentinel.  The call returns for every depth bound of at least
    1. *)
Theorem C10_default_move_despite_moves fuel (st : machine) state s :
  heap st !! state = Some s ->
  generateMoves logic s MaxMoves <> [] ->
  let moves := generateMoves logic s MaxMoves in
  let isMax := isMaximizingPlayer logic s in
  (forall j mj sj,
     moves !! j = Some mj ->
     rootScore MaxMoves MaxDepth logic fuel s isMax mj = Some sj ->
     if isMax then sj <= -32000 else 32000 <= sj) ->
  (forall move st',
     findBestMove Move_default MaxMoves MaxDepth logic fuel state st = Done move st' ->
     move = Move_default /\ getBestScore st' = (if isMax then -32000 else 32000)) /\
  (1 <= MaxDepth -> (Z.to_nat MaxDepth <= fuel)%nat ->
   exists move st',
     findBestMove Move_default MaxMoves MaxDepth logic fuel state st = Done move st').
Proof.
  intros Hs Hmoves moves isMax Hscores. split.
  - intros move st' Hrun.
    destruct (findBestMove_selects _ _ _ _ _ _ Hs Hmoves Hrun) as [_ Hsel].
    fold moves isMax in Hsel.
    destruct Hsel as [[Hb Hm] | (Himp & i & Hi & Hsc & _)].
    { split; [exact Hm | exact Hb]. }
    exfalso. specialize (Hscores i move _ Hi Hsc).
    unfold improves, sentinel in Himp. destruct isMax; lia.
  - intros Hd Hf. eapply findBestMove_returns; eauto.
Qed.

(** ** The two loops as one, and what a returned run went through *)

Abbreviation loop := (nodeLoop logic).

Lemma maxLoop_nodeLoop (search : search_fn) state d moves : forall alpha beta acc (st : machine),
  maxLoop logic search state d moves alpha beta acc st
  = loop true search state d moves alpha beta acc st.
Proof.
  induction moves as [|move rest IH]; intros alpha beta acc st; [reflexivity|].
  cbn [maxLoop nodeLoop negb]. unfold bind.
  destruct (searchChild _ _ _ _ _ _ _ _ st) as [eval st1| |]; try reflexivity.
  destruct (beta <=? Z.max alpha eval); [reflexivity | apply IH].
Qed.

Lemma minLoop_nodeLoop (search : search_fn) state d moves : forall alpha beta acc (st : machine),
  minLoop logic search state d moves alpha beta acc st
  = loop false search state d moves alpha beta acc st.
Proof.
  induction moves as [|move rest IH]; intros alpha beta acc st; [reflexivity|].
  cbn [minLoop nodeLoop negb]. unfold bind.
  destruct (searchChild _ _ _ _ _ _ _ _ st) as [eval st1| |]; try reflexivity.
  destruct (Z.min beta eval <=? alpha); [reflexivity | apply IH].
Qed.

Lemma searchChild_inv (search : search_fn) state move d alpha beta mp (st : machine) v st' :
  searchChild logic search state move d alpha beta mp st = Done v st' ->
  exists s st1,
    heap st !! state = Some s /\
    search (length (heap st)) d alpha beta mp (enter logic st state s move) = Done v st1 /\
    st' = leave st st1.
Proof.
  intros Hrun.
  destruct (heap st !! state) as [s|] eqn:Hs.
  2:{ rewrite searchChild_dangling in Hrun by assumption. discriminate. }
  rewrite (searchChild_eq _ _ _ s) in Hrun by assumption.
  destruct (search _ _ _ _ _ _) as [v1 st1| |] eqn:Hchild; try discriminate.
  injection Hrun as <- <-. eauto.
Qed.

(** One iteration of the loop of a node that returned. *)
Lemma nodeLoop_inv mp (search : search_fn) state d move rest alpha beta acc
    (st : machine) v st' :
  loop mp search state d (move :: rest) alpha beta acc st = Done v st' ->
  exists eval st1,
    searchChild logic search state move (d - 1) alpha beta (negb mp) st = Done eval st1 /\
    let acc' := if mp then Z.max acc eval else Z.min acc eval in
    let alpha' := if mp then Z.max alpha eval else alpha in
    let beta' := if mp then beta else Z.min beta eval in
    (beta' <= alpha' /\ v = acc' /\ st' = st1) \/
    (alpha' < beta' /\ loop mp search state d rest alpha' beta' acc' st1 = Done v st').
Proof.
  cbn [nodeLoop]. unfold bind. intros Hrun.
  destruct (searchChild _ _ _ _ _ _ _ _ st) as [eval st1| |]; try discriminate.
  exists eval, st1. split; [reflexivity|]. cbv zeta in *.
  destruct (Z.leb_spec (if mp then beta else Z.min beta eval)
              (if mp then Z.max alpha eval else alpha)).
  - left. injection Hrun as <- <-. auto.
  - right. auto.
Qed.

(** What an invocation that returned went through. *)
Lemma minimax_inv fuel l d alpha beta mp (st : machine) v st' :
  ab (S fuel) l d alpha beta mp st = Done v st' ->
  exists s,
    heap st !! l = Some s /\
    ((d = 0 /\ v = evaluate logic s /\
      st' = entered st l d alpha beta mp [EvEvaluate l]) \/
     (d <> 0 /\ isTerminal logic s = true /\ v = evaluate logic s /\
      st' = entered st l d alpha beta mp [EvIsTerminal l; EvEvaluate l]) \/
     (d <> 0 /\ isTerminal logic s = false /\
      loop mp (ab fuel) l d (generateMoves logic s MaxMoves) alpha beta
        (if mp then -32000 else 32000)
        (entered st l d alpha beta mp [EvIsTerminal l; EvGenerateMoves l MaxMoves])
      = Done v st')).
Proof.
  intros Hrun.
  destruct (heap st !! l) as [s|] eqn:Hs.
  2:{ rewrite minimax_dangling in Hrun by assumption. discriminate. }
  exists s. split; [reflexivity|].
  rewrite (minimax_eq _ _ _ s) in Hrun by assumption.
  destruct (Z.eqb_spec d 0).
  { left. injection Hrun as <- <-. auto. }
  destruct (isTerminal logic s).
  { right. left. injection Hrun as <- <-. auto. }
  right. right. cbv zeta in Hrun.
  destruct mp; [rewrite maxLoop_nodeLoop in Hrun | rewrite minLoop_nodeLoop in Hrun]; auto.
Qed.

(** What a root call that returned went through. *)
Lemma findBestMove_inv fuel state (st : machine) mv st' :
  find fuel state st = Done mv st' ->
  exists s,
    heap st !! state = Some s /\
    ((generateMoves logic s MaxMoves = [] /\ mv = Move_default /\
      st' = root_empty MaxMoves st state) \/
     (generateMoves logic s MaxMoves <> [] /\
      root fuel state (isMaximizingPlayer logic s) (generateMoves logic s MaxMoves)
        Move_default (root_start MaxMoves st state (isMaximizingPlayer logic s))
      = Done mv st')).
Proof.
  intros Hrun.
  destruct (heap st !! state) as [s|] eqn:Hs.
  2:{ rewrite findBestMove_dangling in Hrun by assumption. discriminate. }
  exists s. split; [reflexivity|].
  rewrite (findBestMove_eq _ _ _ s Hs) in Hrun. cbv zeta in Hrun.
  destruct (generateMoves logic s MaxMoves) as [|m ms] eqn:Hm.
  - left. injection Hrun as <- <-. auto.
  - right. split; [discriminate|]. exact Hrun.
Qed.

Lemma rootLoop_inv fuel state isMax move rest bestMove (st : machine) mv st' :
  root fuel state isMax (move :: rest) bestMove st = Done mv st' ->
  exists score st1,
    searchChild logic (ab fuel) state move (MaxDepth - 1) (-32000) 32000 (negb isMax) st
      = Done score st1 /\
    ((improves isMax score (_bestScore st1) /\
      root fuel state isMax rest move
        (Machine (heap st1) score (_nodesSearched st1) (trace st1)) = Done mv st') \/
     (~ improves isMax score (_bestScore st1) /\
      root fuel state isMax rest bestMove st1 = Done mv st')).
Proof.
  rewrite rootLoop_cons. intros Hrun.
  destruct (searchChild _ _ _ _ _ _ _ _ st) as [score st1| |]; try discriminate.
  exists score, st1. split; [reflexivity|]. unfold improves.
  destruct isMax.
  - rewrite Z.gtb_ltb in Hrun. destruct (Z.ltb_spec (_bestScore st1) score); [left | right]; split; auto; lia.
  - destruct (Z.ltb_spec score (_bestScore st1)); [left | right]; split; auto; lia.
Qed.

(** ** Windows, flags and cells of the searches of a run *)

Lemma nested_nil base state mp : nested base state mp (@nil (@event Move)).
Proof. repeat split; constructor. Qed.

Lemma nested_app base state mp (a b : list (@event Move)) :
  nested base state mp a -> nested base state mp b -> nested base state mp (a ++ b).
Proof.
  intros (A1 & A2 & A3) (B1 & B2 & B3). repeat split; apply Forall_app; auto.
Qed.

(** The log of the search of one child, seen from the parent. *)
Lemma nested_child (n : nat) state move d alpha beta f calls (evs : list (@event Move)) :
  -32000 <= alpha -> alpha < beta -> beta <= 32000 ->
  own_calls MaxMoves n calls ->
  nested (S n) n (negb f) evs ->
  nested n state f
    (EvCopy state n :: EvApplyMove n move :: EvMinimax n d alpha beta f :: calls ++ evs).
Proof.
  intros Ha Hab Hb Hcalls (W & F & A).
  assert (Hodd : forall l, (S n <= l)%nat ->
            xorb (negb f) (Nat.odd (l - S n)) = xorb f (Nat.odd (l - n))).
  { intros l Hl. replace (l - n)%nat with (S (l - S n)) by lia.
    rewrite Nat.odd_succ, <- Nat.negb_odd. destruct f, (Nat.odd (l - S n)); reflexivity. }
  repeat split.
  - do 2 (constructor; [exact I|]). constructor; [lia|].
    apply Forall_app. split; [|exact W].
    destruct Hcalls as [-> | [-> | ->]]; repeat constructor.
  - do 2 (constructor; [exact I|]). constructor.
    { split; [lia|]. rewrite Nat.sub_diag. cbn. now destruct f. }
    apply Forall_app. split.
    + destruct Hcalls as [-> | [-> | ->]]; repeat constructor.
    + eapply Forall_impl; [exact F|]. intros []; auto.
      intros [Hl ->]. split; [lia | now apply Hodd].
  - constructor; [split; [now left | lia]|]. do 2 (constructor; [cbn; lia|]).
    apply Forall_app. split.
    + destruct Hcalls as [-> | [-> | ->]]; repeat constructor; cbn; lia.
    + eapply Forall_impl; [exact A|]. intros []; cbn; lia.
Qed.

Lemma searchChild_nested (search : search_fn) d state move alpha beta f
    (st : machine) v st' :
  search_nested MaxMoves search d ->
  -32000 <= alpha -> alpha < beta -> beta <= 32000 ->
  searchChild logic search state move d alpha beta f st = Done v st' ->
  exists evs, trace st' = trace st ++ evs /\ nested (length (heap st)) state f evs.
Proof.
  intros Hnest Ha Hab Hb Hrun.
  apply searchChild_inv in Hrun as (s & st1 & Hs & Hchild & ->).
  apply Hnest in Hchild as (calls & evs & Ht & Hcalls & Hn); try assumption.
  cbn [enter heap trace] in Ht, Hn. rewrite length_app in Hn. cbn [length] in Hn.
  replace (length (heap st) + 1)%nat with (S (length (heap st))) in Hn by lia.
  eexists. split.
  - cbn [leave trace]. rewrite Ht, <- app_assoc. cbn [app]. reflexivity.
  - now apply nested_child.
Qed.

Lemma nodeLoop_nested mp (search : search_fn) state d :
  search_frames search (d - 1) -> search_nested MaxMoves search (d - 1) ->
  forall moves alpha beta acc (st : machine) v st',
    -32000 <= alpha -> alpha < beta -> beta <= 32000 ->
    loop mp search state d moves alpha beta acc st = Done v st' ->
    exists evs, trace st' = trace st ++ evs /\ nested (length (heap st)) state (negb mp) evs.
Proof.
  intros Hframes Hnest.
  induction moves as [|move rest IH]; intros alpha beta acc st v st' Ha Hab Hb Hrun.
  - injection Hrun as <- <-. exists []. split; [now rewrite app_nil_r | apply nested_nil].
  - apply nodeLoop_inv in Hrun as (eval & st1 & Hchild & Hrest). cbv zeta in Hrest.
    destruct (searchChild_run _ _ _ _ _ _ _ _ _ _ Hframes Hchild) as [[Hh _] _].
    apply (searchChild_nested _ _ _ _ _ _ _ _ _ _ Hnest Ha Hab Hb) in Hchild
      as (e1 & Ht1 & Hn1).
    destruct Hrest as [(_ & _ & ->) | (Hopen & Hrest)]; [eauto|].
    apply IH in Hrest as (e2 & Ht2 & Hn2); try (destruct mp; lia).
    rewrite Hh in Hn2. exists (e1 ++ e2).
    split; [now rewrite Ht2, Ht1, app_assoc | now apply nested_app].
Qed.

Lemma minimax_nested fuel : forall d, search_nested MaxMoves (ab fuel) d.
Proof.
  induction fuel as [|fuel IH]; intros d l alpha beta mp st v st' Ha Hab Hb Hrun.
  - discriminate.
  - apply minimax_inv in Hrun
      as (s & Hs & [(_ & _ & ->) | [(_ & _ & _ & ->) | (Hd & _ & Hrun)]]).
    + exists [EvEvaluate l], []. split; [reflexivity|].
      split; [now left | apply nested_nil].
    + exists [EvIsTerminal l; EvEvaluate l], []. split; [reflexivity|].
      split; [right; now left | apply nested_nil].
    + apply (nodeLoop_nested _ _ _ _ (minimax_run fuel _) (IH _)) in Hrun
        as (evs & Ht & Hn); try assumption.
      cbn [entered heap trace] in Ht, Hn.
      exists [EvIsTerminal l; EvGenerateMoves l MaxMoves], evs.
      split; [rewrite Ht, <- app_assoc; reflexivity|].
      split; [right; now right | exact Hn].
Qed.

Lemma rootLoop_nested fuel state isMax : forall moves bestMove (st : machine) mv st',
  root fuel state isMax moves bestMove st = Done mv st' ->
  exists evs, trace st' = trace st ++ evs /\ nested (length (heap st)) state (negb isMax) evs.
Proof.
  induction moves as [|move rest IH]; intros bestMove st mv st' Hrun.
  - injection Hrun as <- <-. exists []. split; [now rewrite app_nil_r | apply nested_nil].
  - apply rootLoop_inv in Hrun as (score & st1 & Hchild & Hrest).
    destruct (searchChild_run _ _ _ _ _ _ _ _ _ _ (minimax_run fuel _) Hchild) as [[Hh _] _].
    apply (searchChild_nested _ _ _ _ _ _ _ _ _ _ (minimax_nested fuel _)) in Hchild
      as (e1 & Ht1 & Hn1); try lia.
    destruct Hrest as [(_ & Hrest) | (_ & Hrest)];
      apply IH in Hrest as (e2 & Ht2 & Hn2); cbn [heap trace] in Ht2, Hn2;
      rewrite Hh in Hn2; exists (e1 ++ e2);
      (split; [now rewrite Ht2, Ht1, app_assoc | now apply nested_app]).
Qed.

(** ** The range of the scores *)

Lemma nodeLoop_range mp (search : search_fn) state d lo hi :
  (forall l a b f (m : machine) v m',
     search l (d - 1) a b f m = Done v m' -> lo <= v <= hi) ->
  forall moves alpha beta acc (st : machine) v st',
    lo <= acc <= hi ->
    loop mp search state d moves alpha beta acc st = Done v st' ->
    lo <= v <= hi.
Proof.
  intros Hsearch.
  induction moves as [|move rest IH]; intros alpha beta acc st v st' Hacc Hrun.
  - injection Hrun as <- <-. exact Hacc.
  - apply nodeLoop_inv in Hrun as (eval & st1 & Hchild & Hrest). cbv zeta in Hrest.
    apply searchChild_inv in Hchild as (s & st2 & _ & Hchild & _).
    apply Hsearch in Hchild.
    destruct Hrest as [(_ & -> & _) | (_ & Hrest)]; [destruct mp; lia|].
    apply IH in Hrest; [exact Hrest | destruct mp; lia].
Qed.

Lemma minimax_range lo hi :
  (forall s, lo <= evaluate logic s <= hi) ->
  forall fuel l d alpha beta mp (st : machine) v st',
    ab fuel l d alpha beta mp st = Done v st' ->
    Z.min lo (-32000) <= v <= Z.max hi 32000.
Proof.
  intros Heval. induction fuel as [|fuel IH]; intros l d alpha beta mp st v st' Hrun.
  - discriminate.
  - apply minimax_inv in Hrun
      as (s & Hs & [(_ & -> & _) | [(_ & _ & -> & _) | (_ & _ & Hrun)]]).
    + specialize (Heval s). lia.
    + specialize (Heval s). lia.
    + eapply nodeLoop_range in Hrun; [exact Hrun | intros; eapply IH; eauto |].
      destruct mp; lia.
Qed.

Lemma rootLoop_range fuel state isMax lo hi :
  (forall s, lo <= evaluate logic s <= hi) ->
  forall moves bestMove (st : machine) mv st',
    Z.min lo (-32000) <= _bestScore st <= Z.max hi 32000 ->
    root fuel state isMax moves bestMove st = Done mv st' ->
    Z.min lo (-32000) <= _bestScore st' <= Z.max hi 32000.
Proof.
  intros Heval.
  induction moves as [|move rest IH]; intros bestMove st mv st' Hb Hrun.
  - injection Hrun as <- <-. exact Hb.
  - apply rootLoop_inv in Hrun as (score & st1 & Hchild & Hrest).
    pose proof (searchChild_run _ _ _ _ _ _ _ _ _ _ (minimax_run fuel _) Hchild) as [_ Hb1].
    apply searchChild_inv in Hchild as (s & st2 & _ & Hchild & _).
    apply (minimax_range lo hi Heval) in Hchild.
    destruct Hrest as [(_ & Hrest) | (_ & Hrest)]; apply IH in Hrest; auto.
    rewrite Hb1. exact Hb.
Qed.

(** ** The work of a search *)

Lemma searchChild_work (search : search_fn) state move d alpha beta mp (st : machine) v st' :
  searchChild logic search state move d alpha beta mp st = Done v st' ->
  exists s st1,
    heap st !! state = Some s /\
    search (length (heap st)) d alpha beta mp (enter logic st state s move) = Done v st1 /\
    _nodesSearched st' - _nodesSearched st
    = _nodesSearched st1 - _nodesSearched (enter logic st state s move).
Proof.
  intros Hrun. apply searchChild_inv in Hrun as (s & st1 & Hs & Hchild & ->).
  exists s, st1. repeat split; auto.
Qed.

Lemma minimax_work_pos fuel l d alpha beta mp (st : machine) v st' :
  ab fuel l d alpha beta mp st = Done v st' ->
  1 <= _nodesSearched st' - _nodesSearched st.
Proof.
  intros Hrun.
  destruct (minimax_run fuel _ _ _ _ _ _ _ _ Hrun) as [(_ & e & Ht & Hn & _) _].
  destruct (minimax_levels fuel _ _ _ _ _ _ _ _ Hrun) as (e' & Ht' & _).
  rewrite Ht in Ht'. apply app_inv_head in Ht'. subst e.
  rewrite invocations_cons in Hn. cbn [is_minimax] in Hn.
  unfold invocations in Hn. lia.
Qed.

Lemma nodeBound_pos b n : 0 <= b -> 1 <= nodeBound b n.
Proof. intros Hb. induction n as [|n IH]; cbn [nodeBound]; nia. Qed.

Lemma nodeLoop_work_bound mp (search : search_fn) state d B :
  search_frames search (d - 1) ->
  0 <= B ->
  (forall l a b f (m : machine) v m',
     search l (d - 1) a b f m = Done v m' -> _nodesSearched m' - _nodesSearched m <= B) ->
  forall moves alpha beta acc (st : machine) v st',
    loop mp search state d moves alpha beta acc st = Done v st' ->
    _nodesSearched st' - _nodesSearched st <= Z.of_nat (length moves) * B.
Proof.
  intros Hframes HB Hsearch.
  induction moves as [|move rest IH]; intros alpha beta acc st v st' Hrun.
  - injection Hrun as <- <-. cbn. lia.
  - apply nodeLoop_inv in Hrun as (eval & st1 & Hchild & Hrest). cbv zeta in Hrest.
    apply searchChild_work in Hchild as (s & st2 & _ & Hchild & Hw).
    apply Hsearch in Hchild. cbn [enter _nodesSearched] in Hw, Hchild.
    cbn [length]. rewrite Nat2Z.inj_succ.
    destruct Hrest as [(_ & _ & ->) | (_ & Hrest)]; [nia|].
    apply IH in Hrest. nia.
Qed.

Lemma minimax_work_bound b :
  (forall s, Z.of_nat (length (generateMoves logic s MaxMoves)) <= b) ->
  forall fuel l d alpha beta mp (st : machine) v st',
    0 <= d ->
    ab fuel l d alpha beta mp st = Done v st' ->
    _nodesSearched st' - _nodesSearched st <= nodeBound b (Z.to_nat d).
Proof.
  intros Hcap. induction fuel as [|fuel IH]; intros l d alpha beta mp st v st' Hd Hrun.
  - discriminate.
  - apply minimax_inv in Hrun
      as (s & Hs & [(_ & _ & ->) | [(_ & _ & _ & ->) | (Hd0 & _ & Hrun)]]).
    + pose proof (nodeBound_pos b (Z.to_nat d) ltac:(specialize (Hcap s); lia)).
      cbn [entered _nodesSearched]. lia.
    + pose proof (nodeBound_pos b (Z.to_nat d) ltac:(specialize (Hcap s); lia)).
      cbn [entered _nodesSearched]. lia.
    + assert (Hb : 0 <= b) by (specialize (Hcap s); lia).
      replace (Z.to_nat d) with (S (Z.to_nat (d - 1))) by lia. cbn [nodeBound].
      pose proof (nodeBound_pos b (Z.to_nat (d - 1)) Hb) as HB.
      apply (nodeLoop_work_bound _ _ _ _ (nodeBound b (Z.to_nat (d - 1)))
               (minimax_run fuel _)) in Hrun.
      * cbn [entered _nodesSearched] in Hrun. specialize (Hcap s). nia.
      * lia.
      * intros. eapply IH; [|eassumption]. lia.
Qed.

Lemma rootLoop_work fuel state isMax B :
  (forall l a b f (m : machine) v m',
     ab fuel l (MaxDepth - 1) a b f m = Done v m' ->
     1 <= _nodesSearched m' - _nodesSearched m <= B) ->
  forall moves bestMove (st : machine) mv st',
    root fuel state isMax moves bestMove st = Done mv st' ->
    Z.of_nat (length moves) <= _nodesSearched st' - _nodesSearched st
      <= Z.of_nat (length moves) * B.
Proof.
  intros Hsearch.
  induction moves as [|move rest IH]; intros bestMove st mv st' Hrun.
  - injection Hrun as <- <-. cbn. lia.
  - apply rootLoop_inv in Hrun as (score & st1 & Hchild & Hrest).
    apply searchChild_work in Hchild as (s & st2 & _ & Hchild & Hw).
    apply Hsearch in Hchild. cbn [enter _nodesSearched] in Hw, Hchild.
    cbn [length]. rewrite Nat2Z.inj_succ.
    destruct Hrest as [(_ & Hrest) | (_ & Hrest)]; apply IH in Hrest;
      cbn [_nodesSearched] in Hrest; nia.
Qed.

(** ** Pruned work against exhaustive work *)

Lemma exhaustiveFold_add_ge value s moves :
  (forall s' n, value s' = Some n -> 0 <= n) ->
  forall acc N, exhaustiveFold logic Z.add value s moves acc = Some N -> acc <= N.
Proof.
  intros Hpos. induction moves as [|move rest IH]; intros acc N H; cbn in H.
  - injection H as <-. lia.
  - destruct (value _) as [n|] eqn:Hn; [|discriminate].
    apply IH in H. apply Hpos in Hn. lia.
Qed.

Lemma exhaustiveNodes_pos fuel : forall d s N,
  exhaustiveNodes MaxMoves logic fuel d s = Some N -> 1 <= N.
Proof.
  induction fuel as [|fuel IH]; intros d s N H; [discriminate|].
  cbn [exhaustiveNodes] in H.
  destruct ((d =? 0) || isTerminal logic s).
  - injection H as <-. lia.
  - apply exhaustiveFold_add_ge in H; [exact H|].
    intros s' n Hn. apply IH in Hn. lia.
Qed.

Lemma nodeLoop_work_exhaustive mp (search : search_fn) state s d value :
  search_frames search (d - 1) ->
  (forall s' n, value s' = Some n -> 0 <= n) ->
  (forall l a b f (m : machine) s' n v m',
     value s' = Some n -> heap m !! l = Some s' ->
     search l (d - 1) a b f m = Done v m' -> _nodesSearched m' - _nodesSearched m <= n) ->
  forall moves alpha beta acc (st : machine) v st' k N,
    heap st !! state = Some s ->
    exhaustiveFold logic Z.add value s moves k = Some N ->
    loop mp search state d moves alpha beta acc st = Done v st' ->
    _nodesSearched st' - _nodesSearched st <= N - k.
Proof.
  intros Hframes Hpos Hsearch.
  induction moves as [|move rest IH]; intros alpha beta acc st v st' k N Hs Hexh Hrun;
    cbn in Hexh.
  - injection Hexh as <-. injection Hrun as <- <-. lia.
  - destruct (value (applyMove logic s move)) as [n|] eqn:Hn; [|discriminate].
    apply nodeLoop_inv in Hrun as (eval & st1 & Hchild & Hrest). cbv zeta in Hrest.
    pose proof (searchChild_lookup _ _ _ _ _ _ _ _ _ _ _ Hframes Hs Hchild) as Hs1.
    apply searchChild_work in Hchild as (s0 & st2 & Hs0 & Hchild & Hw).
    assert (s0 = s) by congruence. subst s0.
    eapply Hsearch in Hchild; [|exact Hn | apply enter_lookup].
    cbn [enter _nodesSearched] in Hw, Hchild.
    destruct Hrest as [(_ & _ & ->) | (_ & Hrest)].
    + apply exhaustiveFold_add_ge in Hexh; [lia | exact Hpos].
    + eapply IH in Hrest; [|exact Hs1 | exact Hexh]. lia.
Qed.

Lemma minimax_work_exhaustive fuel : forall d s N l alpha beta mp (st : machine) v st',
  exhaustiveNodes MaxMoves logic fuel d s = Some N ->
  heap st !! l = Some s ->
  ab fuel l d alpha beta mp st = Done v st' ->
  _nodesSearched st' - _nodesSearched st <= N.
Proof.
  induction fuel as [|fuel IH]; intros d s N l alpha beta mp st v st' Hexh Hs Hrun.
  - discriminate.
  - cbn [exhaustiveNodes] in Hexh.
    apply minimax_inv in Hrun
      as (s0 & Hs0 & [(-> & _ & ->) | [(_ & Ht & _ & ->) | (Hd0 & Ht & Hrun)]]);
      assert (s0 = s) by congruence; subst s0.
    + cbn in Hexh. injection Hexh as <-. cbn [entered _nodesSearched]. lia.
    + rewrite Ht, orb_true_r in Hexh. injection Hexh as <-.
      cbn [entered _nodesSearched]. lia.
    + apply Z.eqb_neq in Hd0. rewrite Hd0, Ht in Hexh. cbn [orb] in Hexh.
      eapply (nodeLoop_work_exhaustive _ _ _ s _ _ (minimax_run fuel _)) in Hrun;
        [| | |exact Hs |exact Hexh].
      * cbn [entered _nodesSearched] in Hrun. lia.
      * intros s' n Hn. apply exhaustiveNodes_pos in Hn. lia.
      * intros. eapply IH; eauto.
Qed.

Lemma rootLoop_work_exhaustive fuel state s isMax :
  forall moves bestMove (st : machine) mv st' k N,
    heap st !! state = Some s ->
    exhaustiveFold logic Z.add (exhaustiveNodes MaxMoves logic fuel (MaxDepth - 1)) s moves k
      = Some N ->
    root fuel state isMax moves bestMove st = Done mv st' ->
    _nodesSearched st' - _nodesSearched st <= N - k.
Proof.
  induction moves as [|move rest IH]; intros bestMove st mv st' k N Hs Hexh Hrun;
    cbn in Hexh.
  - injection Hexh as <-. injection Hrun as <- <-. lia.
  - destruct (exhaustiveNodes _ _ _ _ (applyMove logic s move)) as [n|] eqn:Hn;
      [|discriminate].
    apply rootLoop_inv in Hrun as (score & st1 & Hchild & Hrest).
    pose proof (searchChild_lookup _ _ _ _ _ _ _ _ _ _ _ (minimax_run fuel _) Hs Hchild) as Hs1.
    apply searchChild_work in Hchild as (s0 & st2 & Hs0 & Hchild & Hw).
    assert (s0 = s) by congruence. subst s0.
    eapply minimax_work_exhaustive in Hchild; [|exact Hn | apply enter_lookup].
    cbn [enter _nodesSearched] in Hw, Hchild.
    destruct Hrest as [(_ & Hrest) | (_ & Hrest)];
      (eapply IH in Hrest; [|exact Hs1 | exact Hexh]);
      cbn [_nodesSearched] in Hrest; lia.
Qed.

Lemma exhaustiveNodes_total fuel : forall d s,
  0 <= d < Z.of_nat fuel -> exists N, exhaustiveNodes MaxMoves logic fuel d s = Some N.
Proof.
  induction fuel as [|fuel IH]; intros d s Hd; [lia|].
  cbn [exhaustiveNodes]. destruct (d =? 0) eqn:H0; cbn [orb]; [eauto|].
  apply Z.eqb_neq in H0.
  destruct (isTerminal logic s); [eauto|].
  apply exhaustiveFold_total. intros s'. apply IH. lia.
Qed.

(** ** The moves a node tries *)

Lemma applied_at_app n (a b : list (@event Move)) :
  applied_at n (a ++ b) = applied_at n a ++ applied_at n b.
Proof.
  induction a as [|e a IH]; [reflexivity|].
  destruct e; cbn [app applied_at]; auto.
  destruct (Nat.eqb _ n); cbn [app]; now rewrite IH.
Qed.

Lemma applied_at_above n (evs : list (@event Move)) :
  writes_above (S n) evs -> applied_at n evs = [].
Proof.
  induction 1 as [|e evs He _ IH]; [reflexivity|].
  destruct e; cbn [applied_at]; auto.
  destruct (Nat.eqb_spec state n); [lia | exact IH].
Qed.

Lemma searchChild_applied fuel state move d alpha beta f (st : machine) v st1 :
  searchChild logic (ab fuel) state move d alpha beta f st = Done v st1 ->
  exists evs,
    trace st1 = trace st ++ evs /\ applied_at (length (heap st)) evs = [move].
Proof.
  intros Hrun. apply searchChild_log in Hrun as (evs & Ht & Hw & _).
  eexists. split; [exact Ht|].
  cbn [applied_at]. rewrite Nat.eqb_refl. now rewrite applied_at_above.
Qed.

Lemma nodeLoop_applied mp fuel state d :
  forall moves alpha beta acc (st : machine) v st',
    loop mp (ab fuel) state d moves alpha beta acc st = Done v st' ->
    exists evs,
      trace st' = trace st ++ evs /\
      applied_at (length (heap st)) evs `prefix_of` moves.
Proof.
  induction moves as [|move rest IH]; intros alpha beta acc st v st' Hrun.
  - injection Hrun as <- <-. exists []. split; [now rewrite app_nil_r | apply prefix_nil].
  - apply nodeLoop_inv in Hrun as (eval & st1 & Hchild & Hrest). cbv zeta in Hrest.
    destruct (searchChild_run _ _ _ _ _ _ _ _ _ _ (minimax_run fuel _) Hchild) as [[Hh _] _].
    apply searchChild_applied in Hchild as (e1 & Ht1 & Ha1).
    destruct Hrest as [(_ & _ & ->) | (_ & Hrest)].
    + exists e1. split; [exact Ht1|]. rewrite Ha1.
      apply prefix_cons, prefix_nil.
    + apply IH in Hrest as (e2 & Ht2 & Ha2). rewrite Hh in Ha2.
      exists (e1 ++ e2). split; [now rewrite Ht2, Ht1, app_assoc|].
      rewrite applied_at_app, Ha1. cbn [app]. now apply prefix_cons.
Qed.

Lemma rootLoop_applied fuel state isMax :
  forall moves bestMove (st : machine) mv st',
    root fuel state isMax moves bestMove st = Done mv st' ->
    exists evs,
      trace st' = trace st ++ evs /\ applied_at (length (heap st)) evs = moves.
Proof.
  induction moves as [|move rest IH]; intros bestMove st mv st' Hrun.
  - injection Hrun as <- <-. exists []. split; [now rewrite app_nil_r | reflexivity].
  - apply rootLoop_inv in Hrun as (score & st1 & Hchild & Hrest).
    destruct (searchChild_run _ _ _ _ _ _ _ _ _ _ (minimax_run fuel _) Hchild) as [[Hh _] _].
    apply searchChild_applied in Hchild as (e1 & Ht1 & Ha1).
    destruct Hrest as [(_ & Hrest) | (_ & Hrest)];
      apply IH in Hrest as (e2 & Ht2 & Ha2); cbn [heap trace] in Ht2, Ha2;
      rewrite Hh in Ha2; exists (e1 ++ e2);
      (split; [now rewrite Ht2, Ht1, app_assoc|]);
      rewrite applied_at_app, Ha1, Ha2; reflexivity.
Qed.

(** ** Only live cells are read *)

Lemma nodeLoop_no_fault mp (search : search_fn) state s d :
  search_frames search (d - 1) ->
  (forall l a b f (m : machine) s',
     heap m !! l = Some s' -> search l (d - 1) a b f m <> Fault) ->
  forall moves alpha beta acc (st : machine),
    heap st !! state = Some s ->
    loop mp search state d moves alpha beta acc st <> Fault.
Proof.
  intros Hframes Hsearch.
  induction moves as [|move rest IH]; intros alpha beta acc st Hs; [discriminate|].
  cbn [nodeLoop]. unfold bind.
  destruct (searchChild _ _ _ _ _ _ _ _ st) as [eval st1| |] eqn:Hchild.
  - pose proof (searchChild_lookup _ _ _ _ _ _ _ _ _ _ _ Hframes Hs Hchild) as Hs1.
    cbv zeta. destruct (_ <=? _); [discriminate | now apply IH].
  - discriminate.
  - rewrite (searchChild_eq _ _ _ _ _ _ _ _ _ Hs) in Hchild.
    destruct (search _ _ _ _ _ _) eqn:E; try discriminate.
    exfalso. eapply Hsearch; [apply enter_lookup | exact E].
Qed.

Lemma minimax_no_fault fuel : forall l d alpha beta mp (st : machine) s,
  heap st !! l = Some s -> ab fuel l d alpha beta mp st <> Fault.
Proof.
  induction fuel as [|fuel IH]; intros l d alpha beta mp st s Hs; [discriminate|].
  rewrite (minimax_eq _ _ _ s) by exact Hs.
  destruct (d =? 0); [discriminate|].
  destruct (isTerminal logic s); [discriminate|]. cbv zeta.
  destruct mp; [rewrite maxLoop_nodeLoop | rewrite minLoop_nodeLoop];
    apply (nodeLoop_no_fault _ _ _ s _ (minimax_run fuel _)); auto;
    intros; eapply IH; eauto.
Qed.

Lemma rootLoop_no_fault fuel state s isMax : forall moves bestMove (st : machine),
  heap st !! state = Some s ->
  root fuel state isMax moves bestMove st <> Fault.
Proof.
  induction moves as [|move rest IH]; intros bestMove st Hs; [discriminate|].
  rewrite rootLoop_cons.
  destruct (searchChild _ _ _ _ _ _ _ _ st) as [score st1| |] eqn:Hchild.
  - pose proof (searchChild_lookup _ _ _ _ _ _ _ _ _ _ _ (minimax_run fuel _) Hs Hchild)
      as Hs1.
    destruct (if isMax then _ else _); now apply IH.
  - discriminate.
  - rewrite (searchChild_eq _ _ _ _ _ _ _ _ _ Hs) in Hchild.
    destruct (ab fuel _ _ _ _ _ _) eqn:E; try discriminate.
    exfalso. eapply minimax_no_fault; [apply enter_lookup | exact E].
Qed.

(** ** The same position gives the same search *)

Lemma searchChild_same_work (search : search_fn) d state1 state2 s move alpha beta f
    (st1 st2 : machine) :
  (forall (m1 m2 : machine) l1 l2 s' a b g,
     heap m1 !! l1 = Some s' -> heap m2 !! l2 = Some s' ->
     agree_work m1 m2 (search l1 d a b g m1) (search l2 d a b g m2)) ->
  heap st1 !! state1 = Some s -> heap st2 !! state2 = Some s ->
  agree_work st1 st2 (searchChild logic search state1 move d alpha beta f st1)
    (searchChild logic search state2 move d alpha beta f st2).
Proof.
  intros Hsame H1 H2.
  rewrite (searchChild_eq _ _ _ _ _ _ _ _ _ H1), (searchChild_eq _ _ _ _ _ _ _ _ _ H2).
  specialize (Hsame _ _ _ _ _ alpha beta f
                (enter_lookup st1 state1 s move) (enter_lookup st2 state2 s move)).
  destruct (search _ _ _ _ _ (enter logic st1 _ _ _));
    destruct (search _ _ _ _ _ (enter logic st2 _ _ _)); exact Hsame.
Qed.

Lemma nodeLoop_same_work mp (search : search_fn) d state1 state2 s :
  search_frames search (d - 1) ->
  (forall (m1 m2 : machine) l1 l2 s' a b g,
     heap m1 !! l1 = Some s' -> heap m2 !! l2 = Some s' ->
     agree_work m1 m2 (search l1 (d - 1) a b g m1) (search l2 (d - 1) a b g m2)) ->
  forall moves alpha beta acc (st1 st2 : machine),
    heap st1 !! state1 = Some s -> heap st2 !! state2 = Some s ->
    agree_work st1 st2 (loop mp search state1 d moves alpha beta acc st1)
      (loop mp search state2 d moves alpha beta acc st2).
Proof.
  intros Hframes Hsame.
  induction moves as [|move rest IH]; intros alpha beta acc st1 st2 H1 H2.
  - cbn. split; [reflexivity | lia].
  - cbn [nodeLoop]. unfold bind.
    pose proof (searchChild_same_work search (d - 1) _ _ s move alpha beta (negb mp)
                  st1 st2 Hsame H1 H2) as Hag.
    destruct (searchChild _ _ state1 _ _ _ _ _ st1) as [v1 m1| |] eqn:E1;
      destruct (searchChild _ _ state2 _ _ _ _ _ st2) as [v2 m2| |] eqn:E2;
      try exact Hag; try (exfalso; exact Hag).
    destruct Hag as [<- Hw]. cbv zeta.
    destruct (_ <=? _); [split; [reflexivity | exact Hw]|].
    pose proof (searchChild_lookup _ _ _ _ _ _ _ _ _ _ _ Hframes H1 E1) as H1'.
    pose proof (searchChild_lookup _ _ _ _ _ _ _ _ _ _ _ Hframes H2 E2) as H2'.
    specialize (IH (if mp then Z.max alpha v1 else alpha)
                  (if mp then beta else Z.min beta v1)
                  (if mp then Z.max acc v1 else Z.min acc v1) m1 m2 H1' H2').
    destruct (loop mp search state1 _ _ _ _ _ m1); destruct (loop mp search state2 _ _ _ _ _ m2);
      try exact IH. destruct IH as [-> Hw']. split; [reflexivity | lia].
Qed.

Lemma minimax_same_work fuel : forall d (st1 st2 : machine) l1 l2 s alpha beta mp,
  heap st1 !! l1 = Some s -> heap st2 !! l2 = Some s ->
  agree_work st1 st2 (ab fuel l1 d alpha beta mp st1) (ab fuel l2 d alpha beta mp st2).
Proof.
  induction fuel as [|fuel IH]; intros d st1 st2 l1 l2 s alpha beta mp H1 H2.
  - exact I.
  - rewrite (minimax_eq _ _ _ s) by exact H1.
    rewrite (minimax_eq _ st2 _ s) by exact H2.
    destruct (d =? 0); [cbn; split; [reflexivity | lia]|].
    destruct (isTerminal logic s); [cbn; split; [reflexivity | lia]|].
    cbv zeta.
    assert (Hloop : forall f,
      agree_work
        (entered st1 l1 d alpha beta mp [EvIsTerminal l1; EvGenerateMoves l1 MaxMoves])
        (entered st2 l2 d alpha beta mp [EvIsTerminal l2; EvGenerateMoves l2 MaxMoves])
        (loop f (ab fuel) l1 d (generateMoves logic s MaxMoves) alpha beta
           (if f then -32000 else 32000)
           (entered st1 l1 d alpha beta mp [EvIsTerminal l1; EvGenerateMoves l1 MaxMoves]))
        (loop f (ab fuel) l2 d (generateMoves logic s MaxMoves) alpha beta
           (if f then -32000 else 32000)
           (entered st2 l2 d alpha beta mp [EvIsTerminal l2; EvGenerateMoves l2 MaxMoves]))).
    { intros f. apply (nodeLoop_same_work _ _ _ _ _ s (minimax_run fuel _));
        [intros; eapply IH; eassumption | exact H1 | exact H2]. }
    destruct mp; [rewrite !maxLoop_nodeLoop | rewrite !minLoop_nodeLoop];
      [specialize (Hloop true) | specialize (Hloop false)];
      destruct (loop _ _ l1 _ _ _ _ _ _); destruct (loop _ _ l2 _ _ _ _ _ _);
      try exact Hloop; destruct Hloop as [-> Hw]; cbn [entered _nodesSearched] in Hw;
      (split; [reflexivity | lia]).
Qed.

Lemma rootLoop_same_work fuel state1 state2 s isMax :
  forall moves bestMove (st1 st2 : machine),
    heap st1 !! state1 = Some s -> heap st2 !! state2 = Some s ->
    _bestScore st1 = _bestScore st2 ->
    match root fuel state1 isMax moves bestMove st1,
          root fuel state2 isMax moves bestMove st2 with
    | Done m1 st1', Done m2 st2' =>
        m1 = m2 /\ _bestScore st1' = _bestScore st2' /\
        _nodesSearched st1' - _nodesSearched st1 = _nodesSearched st2' - _nodesSearched st2
    | Diverge, Diverge => True
    | _, _ => False
    end.
Proof.
  induction moves as [|move rest IH]; intros bestMove st1 st2 H1 H2 Hb.
  - cbn. repeat split; [exact Hb | lia].
  - rewrite !rootLoop_cons.
    pose proof (searchChild_same_work (ab fuel) (MaxDepth - 1) _ _ s move (-32000) 32000
                  (negb isMax) st1 st2 (minimax_same_work fuel _) H1 H2) as Hag.
    destruct (searchChild _ _ state1 _ _ _ _ _ st1) as [v1 m1| |] eqn:E1;
      destruct (searchChild _ _ state2 _ _ _ _ _ st2) as [v2 m2| |] eqn:E2;
      try exact Hag; try (exfalso; exact Hag).
    destruct Hag as [<- Hw].
    pose proof (searchChild_lookup _ _ _ _ _ _ _ _ _ _ _ (minimax_run fuel _) H1 E1) as H1'.
    pose proof (searchChild_lookup _ _ _ _ _ _ _ _ _ _ _ (minimax_run fuel _) H2 E2) as H2'.
    destruct (searchChild_run _ _ _ _ _ _ _ _ _ _ (minimax_run fuel _) E1) as [_ Hb1].
    destruct (searchChild_run _ _ _ _ _ _ _ _ _ _ (minimax_run fuel _) E2) as [_ Hb2].
    rewrite Hb1, Hb2, <- Hb.
    destruct (if isMax then _ else _).
    + specialize (IH move (Machine (heap m1) v1 (_nodesSearched m1) (trace m1))
                    (Machine (heap m2) v1 (_nodesSearched m2) (trace m2)) H1' H2' eq_refl).
      destruct (root _ _ _ _ _ (Machine (heap m1) _ _ _)); try exact IH;
        destruct (root _ _ _ _ _ (Machine (heap m2) _ _ _)); try exact IH.
      cbn [_nodesSearched] in IH. destruct IH as (-> & -> & Hw'). repeat split. lia.
    + specialize (IH bestMove m1 m2 H1' H2' ltac:(congruence)).
      destruct (root _ _ _ _ _ m1); try exact IH;
        destruct (root _ _ _ _ _ m2); try exact IH.
      destruct IH as (-> & -> & Hw'). repeat split. lia.
Qed.

(** ** Scores strictly between the sentinels *)

Lemma nodeLoop_inside (mp : bool) (search : search_fn) state d :
  (forall l a b f (m : machine) v m',
     search l (d - 1) a b f m = Done v m' -> -32000 < v < 32000) ->
  forall (moves : list Move) alpha beta acc (st : machine) v st',
    (-32000 < acc < 32000 \/ (acc = (if mp then -32000 else 32000) /\ moves <> [])) ->
    loop mp search state d moves alpha beta acc st = Done v st' ->
    -32000 < v < 32000.
Proof.
  intros Hsearch.
  induction moves as [|move rest IH]; intros alpha beta acc st v st' Hacc Hrun.
  - injection Hrun as <- <-. destruct Hacc as [Hacc | [_ Hne]]; [exact Hacc | congruence].
  - apply nodeLoop_inv in Hrun as (eval & st1 & Hchild & Hrest). cbv zeta in Hrest.
    apply searchChild_inv in Hchild as (s & st2 & _ & Hchild & _).
    apply Hsearch in Hchild.
    assert (Hacc' : -32000 < (if mp then Z.max acc eval else Z.min acc eval) < 32000)
      by (destruct mp; lia).
    destruct Hrest as [(_ & -> & _) | (_ & Hrest)]; [exact Hacc'|].
    apply IH in Hrest; auto.
Qed.

Lemma minimax_inside :
  (forall s, -32000 < evaluate logic s < 32000) ->
  (forall s, generateMoves logic s MaxMoves = [] -> isTerminal logic s = true) ->
  forall fuel l d alpha beta mp (st : machine) v st',
    ab fuel l d alpha beta mp st = Done v st' -> -32000 < v < 32000.
Proof.
  intros Heval Hcontract.
  induction fuel as [|fuel IH]; intros l d alpha beta mp st v st' Hrun.
  - discriminate.
  - apply minimax_inv in Hrun
      as (s & Hs & [(_ & -> & _) | [(_ & _ & -> & _) | (_ & Ht & Hrun)]]);
      [apply Heval | apply Heval |].
    eapply nodeLoop_inside in Hrun; [exact Hrun | intros; eapply IH; eauto |].
    right. split; [reflexivity|]. intros Hnil. apply Hcontract in Hnil. congruence.
Qed.

(** ** Further properties of the search and of the root operation *)

(** X1. A search with an open window stands to the exhaustive value [t]
    of its node as alpha-beta should: it returns [t] whenever [t] lies
    strictly inside the window, a value at or below [alpha] whenever [t]
    does, and a value at or above [beta] whenever [t] does; and a value it
    returns outside the window bounds [t] from the side it lies on. *)
Theorem X1_search_value_against_window fuel d mp (st : machine) l s alpha beta t :
  heap st !! l = Some s ->
  alpha < beta ->
  exhaustive MaxMoves logic fuel d mp s = Some t ->
  exists v st',
    minimax MaxMoves logic fuel l d alpha beta mp st = Done v st' /\
    (alpha < t < beta -> v = t) /\
    (t <= alpha -> t <= v <= alpha) /\
    (beta <= t -> beta <= v <= t).
Proof.
  intros Hs Hab Hexh.
  destruct (minimax_refines fuel d mp st l s alpha beta t Hexh Hs Hab)
    as (v & st' & Hrun & (F1 & F2 & F3) & _).
  exists v, st'. split; [exact Hrun|]. lia.
Qed.

(** X2. When [evaluate] stays between [lo] and [hi], so does every value
    a search returns, on any cell of any machine, leaves and positions
    without moves included, up to the two sentinels; and so does the best
    score after a root call that had a move to try.  The root call returns
    for every depth bound of at least 1. *)
Theorem X2_scores_in_range lo hi fuel (st : machine) state s :
  (forall s', lo <= evaluate logic s' <= hi) ->
  heap st !! state = Some s ->
  (forall l d alpha beta mp (m : machine) v m',
     minimax MaxMoves logic fuel l d alpha beta mp m = Done v m' ->
     Z.min lo (-32000) <= v <= Z.max hi 32000) /\
  (generateMoves logic s MaxMoves <> [] ->
   forall move st',
     findBestMove Move_default MaxMoves MaxDepth logic fuel state st = Done move st' ->
     Z.min lo (-32000) <= getBestScore st' <= Z.max hi 32000) /\
  (1 <= MaxDepth -> (Z.to_nat MaxDepth <= fuel)%nat ->
   exists move st',
     findBestMove Move_default MaxMoves MaxDepth logic fuel state st = Done move st').
Proof.
  intros Heval Hs. split; [|split].
  - intros l d alpha beta mp m v m' Hrun. eapply minimax_range; eauto.
  - intros Hmoves move st' Hrun.
    apply findBestMove_inv in Hrun as (s0 & Hs0 & [(Hnil & _) | (_ & Hrun)]);
      assert (s0 = s) by congruence; subst s0; [congruence|].
    eapply (rootLoop_range _ _ _ lo hi Heval) in Hrun; [exact Hrun|].
    cbn [root_start _bestScore]. unfold sentinel.
    destruct (isMaximizingPlayer logic s); lia.
  - intros Hd Hf. eapply findBestMove_returns; eauto.
Qed.

(** X3. Under the contract of the capability, that [evaluate] stays
    strictly between the sentinels and that a state without moves is
    terminal, a root call on a state with moves returns, for every depth
    bound of at least 1, and the move it returns is one of the moves
    [generateMoves] produced, never the default move by lack of choice; the
    best score is the score of that move, strictly between the sentinels. *)
Theorem X3_returns_a_generated_move fuel (st : machine) state s :
  (forall s', -32000 < evaluate logic s' < 32000) ->
  (forall s', generateMoves logic s' MaxMoves = [] -> isTerminal logic s' = true) ->
  heap st !! state = Some s ->
  generateMoves logic s MaxMoves <> [] ->
  (forall move st',
     findBestMove Move_default MaxMoves MaxDepth logic fuel state st = Done move st' ->
     (exists i, generateMoves logic s MaxMoves !! i = Some move) /\
     rootScore MaxMoves MaxDepth logic fuel s (isMaximizingPlayer logic s) move
       = Some (getBestScore st') /\
     -32000 < getBestScore st' < 32000) /\
  (1 <= MaxDepth -> (Z.to_nat MaxDepth <= fuel)%nat ->
   exists move st',
     findBestMove Move_default MaxMoves MaxDepth logic fuel state st = Done move st').
Proof.
  intros Heval Hcontract Hs Hmoves.
  split; [|intros Hd Hf; eapply findBestMove_returns; eauto].
  intros move st' Hrun.
  assert (Hscore : forall mj sj,
            rootScore MaxMoves MaxDepth logic fuel s (isMaximizingPlayer logic s) mj = Some sj ->
            -32000 < sj < 32000).
  { intros mj sj Hsj. unfold rootScore in Hsj.
    destruct (searchChild _ _ _ _ _ _ _ _ _) as [v m| |] eqn:Hchild; try discriminate.
    injection Hsj as <-.
    apply searchChild_inv in Hchild as (s1 & m1 & _ & Hchild & _).
    eapply minimax_inside; eauto. }
  destruct (findBestMove_selects _ _ _ _ _ _ Hs Hmoves Hrun) as [Hall Hsel].
  destruct Hsel as [[Hb _] | (_ & i & Hi & Hsc & _)].
  - exfalso. destruct (generateMoves logic s MaxMoves) as [|m0 ms] eqn:Hm; [congruence|].
    destruct (Hall 0%nat m0 eq_refl) as (sj & Hsj & Hno).
    apply Hscore in Hsj. rewrite Hb in Hno.
    unfold improves, sentinel in Hno. destruct (isMaximizingPlayer logic s); lia.
  - split; [eauto|]. split; [exact Hsc | eapply Hscore; eauto].
Qed.

(** X4. When the capability never generates more than [MaxMoves] moves,
    the depth bound is at least 1 and the worst case of the configuration,
    [MaxMoves * (1 + MaxMoves + ... + MaxMoves^(MaxDepth-1))], does not
    exceed [INT_MAX], the largest [int] of the platform (a parameter: the
    constant is the platform's, not the source's), the node counter cannot
    overflow: a root call on a state with moves returns as soon as the
    stack covers the depth, and then [getNodesSearched] is at least the
    number of root moves and at most that worst case. *)
Theorem X4_node_count_bounds (INT_MAX : Z) fuel (st : machine) state s :
  (forall s', Z.of_nat (length (generateMoves logic s' MaxMoves)) <= MaxMoves) ->
  1 <= MaxDepth ->
  MaxMoves * nodeBound MaxMoves (Z.to_nat (MaxDepth - 1)) <= INT_MAX ->
  heap st !! state = Some s ->
  generateMoves logic s MaxMoves <> [] ->
  (forall move st',
     findBestMove Move_default MaxMoves MaxDepth logic fuel state st = Done move st' ->
     Z.of_nat (length (generateMoves logic s MaxMoves)) <= getNodesSearched st'
       <= MaxMoves * nodeBound MaxMoves (Z.to_nat (MaxDepth - 1)) /\
     0 <= getNodesSearched st' <= INT_MAX) /\
  ((Z.to_nat MaxDepth <= fuel)%nat ->
   exists move st',
     findBestMove Move_default MaxMoves MaxDepth logic fuel state st = Done move st').
Proof.
  intros Hcap Hd Hfit Hs Hmoves.
  split; [|intros Hf; eapply findBestMove_returns; eauto].
  intros move st' Hrun.
  apply findBestMove_inv in Hrun as (s0 & Hs0 & [(Hnil & _) | (_ & Hrun)]);
    assert (s0 = s) by congruence; subst s0; [congruence|].
  assert (Hb : 0 <= MaxMoves) by (specialize (Hcap s); lia).
  pose proof (nodeBound_pos MaxMoves (Z.to_nat (MaxDepth - 1)) Hb) as HB.
  apply (rootLoop_work _ _ _ (nodeBound MaxMoves (Z.to_nat (MaxDepth - 1)))) in Hrun.
  - cbn [root_start _nodesSearched] in Hrun. unfold getNodesSearched.
    specialize (Hcap s). nia.
  - intros l a b f m v m' Hchild. split.
    + eapply minimax_work_pos; eauto.
    + eapply minimax_work_bound; eauto. lia.
Qed.

(** X5. Pruning never adds work: a root call on a state with moves makes
    no more invocations than exhaustive search makes on the same state,
    and for a depth bound of at least 1 that number exists as soon as the
    stack covers the depth. *)
Theorem X5_pruned_work_at_most_exhaustive fuel (st : machine) state s :
  heap st !! state = Some s ->
  generateMoves logic s MaxMoves <> [] ->
  (forall N move st',
     exhaustiveRootNodes MaxMoves MaxDepth logic fuel s = Some N ->
     findBestMove Move_default MaxMoves MaxDepth logic fuel state st = Done move st' ->
     getNodesSearched st' <= N) /\
  (1 <= MaxDepth -> (Z.to_nat MaxDepth <= fuel)%nat ->
   exists N, exhaustiveRootNodes MaxMoves MaxDepth logic fuel s = Some N).
Proof.
  intros Hs Hmoves. split.
  - intros N move st' Hexh Hrun.
    apply findBestMove_inv in Hrun as (s0 & Hs0 & [(Hnil & _) | (_ & Hrun)]);
      assert (s0 = s) by congruence; subst s0; [congruence|].
    eapply rootLoop_work_exhaustive in Hrun; [|exact Hs | exact Hexh].
    cbn [root_start _nodesSearched] in Hrun. unfold getNodesSearched. lia.
  - intros Hd Hf. apply exhaustiveFold_total. intros s'.
    apply exhaustiveNodes_total. lia.
Qed.

(** X6. The root loop has no cutoff: the moves applied to the first-level
    copy during a root call are the moves [generateMoves] produced, each
    once, in generation order. *)
Theorem X6_root_tries_every_move fuel (st : machine) state s move st' :
  heap st !! state = Some s ->
  findBestMove Move_default MaxMoves MaxDepth logic fuel state st = Done move st' ->
  exists evs,
    trace st' = trace st ++ evs /\
    applied_at (length (heap st)) evs = generateMoves logic s MaxMoves.
Proof.
  intros Hs Hrun.
  apply findBestMove_inv in Hrun as (s0 & Hs0 & [(Hnil & _ & ->) | (_ & Hrun)]);
    assert (s0 = s) by congruence; subst s0.
  - exists [EvGenerateMoves state MaxMoves]. split; [reflexivity | now rewrite Hnil].
  - apply rootLoop_applied in Hrun as (evs & Ht & Ha).
    cbn [root_start heap trace] in Ht, Ha.
    exists ([EvGenerateMoves state MaxMoves; EvIsMaximizingPlayer state] ++ evs).
    split; [now rewrite Ht, <- app_assoc | exact Ha].
Qed.

(** X7. A node tries its moves in generation order and stops early only:
    the moves applied to the copies a search makes of its own state form a
    prefix of the moves [generateMoves] produces for that state. *)
Theorem X7_node_tries_a_prefix fuel (st : machine) l s d alpha beta mp v st' :
  heap st !! l = Some s ->
  minimax MaxMoves logic fuel l d alpha beta mp st = Done v st' ->
  exists evs,
    trace st' = trace st ++ evs /\
    applied_at (length (heap st)) evs `prefix_of` generateMoves logic s MaxMoves.
Proof.
  intros Hs Hrun. destruct fuel as [|fuel]; [discriminate|].
  apply minimax_inv in Hrun
    as (s0 & Hs0 & [(_ & _ & ->) | [(_ & _ & _ & ->) | (_ & _ & Hrun)]]);
    assert (s0 = s) by congruence; subst s0.
  - eexists. split; [reflexivity | apply prefix_nil].
  - eexists. split; [reflexivity | apply prefix_nil].
  - apply nodeLoop_applied in Hrun as (evs & Ht & Ha).
    cbn [entered heap trace] in Ht, Ha.
    exists ([EvMinimax l d alpha beta mp; EvIsTerminal l; EvGenerateMoves l MaxMoves] ++ evs).
    split; [now rewrite Ht, <- app_assoc | exact Ha].
Qed.

(** X8. During a root call no search is entered with a closed window:
    every invocation logged has [-32000 <= alpha < beta <= 32000]. *)
Theorem X8_windows_stay_open fuel (st : machine) state move st' :
  findBestMove Move_default MaxMoves MaxDepth logic fuel state st = Done move st' ->
  exists evs, trace st' = trace st ++ evs /\ windows_open evs.
Proof.
  intros Hrun.
  apply findBestMove_inv in Hrun as (s & Hs & [(_ & _ & ->) | (_ & Hrun)]).
  - exists [EvGenerateMoves state MaxMoves]. split; [reflexivity | repeat constructor].
  - apply rootLoop_nested in Hrun as (evs & Ht & Hw & _).
    cbn [root_start trace] in Ht.
    exists ([EvGenerateMoves state MaxMoves; EvIsMaximizingPlayer state] ++ evs).
    split; [now rewrite Ht, <- app_assoc|].
    apply Forall_app. split; [repeat constructor | exact Hw].
Qed.

(** X9. A root call on a state with moves asks [isMaximizingPlayer] once,
    about the root state, and never again: below the root the flag of a
    search is the root player's flipped once per level of nesting, whoever
    the capability would say is to move there. *)
Theorem X9_flags_alternate_by_level fuel (st : machine) state s move st' :
  heap st !! state = Some s ->
  generateMoves logic s MaxMoves <> [] ->
  findBestMove Move_default MaxMoves MaxDepth logic fuel state st = Done move st' ->
  exists evs,
    trace st' = trace st ++
      EvGenerateMoves state MaxMoves :: EvIsMaximizingPlayer state :: evs /\
    flags_alternate (length (heap st)) (negb (isMaximizingPlayer logic s)) evs.
Proof.
  intros Hs Hmoves Hrun.
  apply findBestMove_inv in Hrun as (s0 & Hs0 & [(Hnil & _) | (_ & Hrun)]);
    assert (s0 = s) by congruence; subst s0; [congruence|].
  apply rootLoop_nested in Hrun as (evs & Ht & _ & Hf & _).
  cbn [root_start heap trace] in Ht, Hf.
  exists evs. split; [now rewrite Ht, <- app_assoc | exact Hf].
Qed.

(** X10. The root state is handed to the capability for [generateMoves]
    and [isMaximizingPlayer] only, at most once each, and is otherwise only
    copied: [evaluate] and [isTerminal] are never asked about it, so a
    terminal root state is not detected, and no other cell of the caller
    is read or written. *)
Theorem X10_root_state_is_only_copied fuel (st : machine) state move st' :
  findBestMove Move_default MaxMoves MaxDepth logic fuel state st = Done move st' ->
  exists calls evs,
    trace st' = trace st ++ calls ++ evs /\
    (calls = [EvGenerateMoves state MaxMoves] \/
     calls = [EvGenerateMoves state MaxMoves; EvIsMaximizingPlayer state]) /\
    stays_above (length (heap st)) state evs.
Proof.
  intros Hrun.
  apply findBestMove_inv in Hrun as (s & Hs & [(_ & _ & ->) | (_ & Hrun)]).
  - exists [EvGenerateMoves state MaxMoves], [].
    split; [reflexivity|]. split; [now left | constructor].
  - apply rootLoop_nested in Hrun as (evs & Ht & _ & _ & Ha).
    cbn [root_start heap trace] in Ht, Ha.
    exists [EvGenerateMoves state MaxMoves; EvIsMaximizingPlayer state], evs.
    split; [now rewrite Ht, <- app_assoc|]. split; [now right | exact Ha].
Qed.

(** X11. A root call on a state with moves depends on the position only:
    two engines with any history, holding the same position in any cell,
    return the same move, the same best score and the same node count, or
    both run out of stack. *)
Theorem X11_same_position_same_answer fuel (st1 st2 : machine) state1 state2 s :
  heap st1 !! state1 = Some s ->
  heap st2 !! state2 = Some s ->
  generateMoves logic s MaxMoves <> [] ->
  agree_root (findBestMove Move_default MaxMoves MaxDepth logic fuel state1 st1)
    (findBestMove Move_default MaxMoves MaxDepth logic fuel state2 st2).
Proof.
  intros H1 H2 Hmoves.
  rewrite (findBestMove_eq _ _ _ s H1), (findBestMove_eq _ _ _ s H2). cbv zeta.
  destruct (_ =? 0) eqn:Hz.
  { apply Z.eqb_eq in Hz. destruct (generateMoves logic s MaxMoves); [congruence|].
    cbn in Hz. lia. }
  pose proof (rootLoop_same_work fuel state1 state2 s (isMaximizingPlayer logic s)
                (generateMoves logic s MaxMoves) Move_default
                (root_start MaxMoves st1 state1 (isMaximizingPlayer logic s))
                (root_start MaxMoves st2 state2 (isMaximizingPlayer logic s))
                H1 H2 eq_refl) as Hag.
  unfold agree_root.
  destruct (root _ _ _ _ _ (root_start MaxMoves st1 _ _)); try exact Hag;
    destruct (root _ _ _ _ _ (root_start MaxMoves st2 _ _)); try exact Hag.
  cbn [root_start _nodesSearched] in Hag. destruct Hag as (-> & -> & Hw).
  repeat split. lia.
Qed.

(** X12. The engine reads live cells only: a root call faults exactly
    when the reference it is given is dangling, and on a valid reference it
    either returns or runs out of stack. *)
Theorem X12_faults_only_on_dangling_reference fuel (st : machine) state :
  findBestMove Move_default MaxMoves MaxDepth logic fuel state st = Fault
  <-> heap st !! state = None.
Proof.
  split.
  - intros Hrun. destruct (heap st !! state) as [s|] eqn:Hs; [|reflexivity].
    exfalso. rewrite (findBestMove_eq _ _ _ s Hs) in Hrun. cbv zeta in Hrun.
    destruct (_ =? 0); [discriminate|].
    eapply rootLoop_no_fault; [|exact Hrun]. exact Hs.
  - apply findBestMove_dangling.
Qed.

(** X13. With a depth bound of 1 the engine chooses on the static
    evaluation of the successors: the score of a root move is [evaluate]
    of the state the move leads to, a root call on a state with moves
    returns on a stack of one invocation, and it makes exactly one
    invocation per root move. *)
Theorem X13_one_ply fuel (st : machine) state s :
  MaxDepth = 1 ->
  heap st !! state = Some s ->
  generateMoves logic s MaxMoves <> [] ->
  (forall isMax move,
     rootScore MaxMoves MaxDepth logic (S fuel) s isMax move
       = Some (evaluate logic (applyMove logic s move))) /\
  exists move st',
    findBestMove Move_default MaxMoves MaxDepth logic (S fuel) state st = Done move st' /\
    getNodesSearched st' = Z.of_nat (length (generateMoves logic s MaxMoves)).
Proof.
  intros Hd Hs Hmoves. split.
  - intros isMax move. unfold rootScore.
    rewrite (searchChild_eq _ _ _ s) by reflexivity.
    rewrite (minimax_eq _ _ _ (applyMove logic s move)) by apply enter_lookup.
    rewrite Hd. reflexivity.
  - destruct (findBestMove_returns (S fuel) st state s ltac:(lia) ltac:(lia) Hs)
      as (move & st' & Hrun).
    exists move, st'. split; [exact Hrun|].
    apply findBestMove_inv in Hrun as (s0 & Hs0 & [(Hnil & _) | (_ & Hrun)]);
      assert (s0 = s) by congruence; subst s0; [congruence|].
    apply (rootLoop_work _ _ _ 1) in Hrun.
    + cbn [root_start _nodesSearched] in Hrun. unfold getNodesSearched. lia.
    + intros l a b f m v m' Hchild. rewrite Hd in Hchild.
      apply minimax_inv in Hchild
        as (s1 & _ & [(_ & _ & ->) | [(Hne & _) | (Hne & _)]]); try lia.
      cbn [entered _nodesSearched]. lia.
Qed.

(** X14. One invocation of the search, with all that it invokes, leaves
    the store and the best score as it found them and logs its own entry
    first.  As long as the counter it found plus the invocations it logs,
    itself included, does not exceed [INT_MAX], the largest [int] of the
    platform (a parameter: the constant is the platform's, not the
    source's), no increment overflows and the node counter has advanced by
    exactly that number of invocations, at least 1. *)
Theorem X14_search_accounting (INT_MAX : Z) fuel (st : machine) l d alpha beta mp v st' :
  minimax MaxMoves logic fuel l d alpha beta mp st = Done v st' ->
  heap st' = heap st /\
  _bestScore st' = _bestScore st /\
  exists evs,
    trace st' = trace st ++ EvMinimax l d alpha beta mp :: evs /\
    (_nodesSearched st + 1 + invocations evs <= INT_MAX ->
     _nodesSearched st' = _nodesSearched st + 1 + invocations evs /\
     _nodesSearched st < _nodesSearched st' <= INT_MAX).
Proof.
  intros Hrun.
  destruct (minimax_run fuel _ _ _ _ _ _ _ _ Hrun) as [(Hh & e & Ht & Hn & _) Hb].
  destruct (minimax_levels fuel _ _ _ _ _ _ _ _ Hrun) as (e' & Ht' & _).
  rewrite Ht in Ht'. apply app_inv_head in Ht'. subst e.
  rewrite invocations_cons in Hn. cbn [is_minimax] in Hn.
  split; [exact Hh|]. split; [exact Hb|]. exists e'. split; [exact Ht|].
  intros Hfit. unfold invocations in *. lia.
Qed.

End Theory.

(** * The engine at work *)

(** C1 on [demoTree]: exhaustive search selects move 1 with score 3, and so
    does the pruned search. *)
Lemma C1_witness :
  exists st', treeFind 2 2 0%nat demoMachine = Done 1%nat st' /\ getBestScore st' = 3.
Proof.
  destruct (C1_pruning_keeps_root_outcome 0%nat 64 2 treeGame 2 demoMachine 0%nat demoTree
              eq_refl) as [Hsame _].
  apply (Hsame 1%nat 3). vm_compute. reflexivity.
Defined.

(** C2 as stated fails: after a call on [demoTree], a call on the decided
    position, where no move is generated, returns the default move and
    [getBestScore] still reads 3, the score of the earlier call. *)
Lemma C2_counterexample :
  generateMoves treeGame decided 64 = [] /\
  treeFind 2 2 1%nat afterDemo = Done 0%nat (root_empty 64 afterDemo 1%nat) /\
  getBestScore (root_empty 64 afterDemo 1%nat) = 3 /\
  getBestScore (root_empty 64 afterDemo 1%nat) <> -32000 /\
  getBestScore (root_empty 64 afterDemo 1%nat) <> 32000.
Proof. vm_compute. repeat split; discriminate. Qed.

Lemma C2_witness :
  exists st',
    treeFind 2 2 1%nat afterDemo = Done 0%nat st' /\
    getBestScore st' = getBestScore afterDemo /\
    getNodesSearched st' = getNodesSearched afterDemo /\
    heap st' = heap afterDemo /\
    trace st' = trace afterDemo ++ [EvGenerateMoves 1%nat 64].
Proof.
  apply (C2_no_move_leaves_fields 0%nat 64 2 treeGame 2 afterDemo 1%nat decided);
    reflexivity.
Defined.

(** C3 as stated fails: the same second call makes no invocation of the
    search, and [getNodesSearched] still reads 9. *)
Lemma C3_counterexample :
  treeFind 2 2 1%nat afterDemo = Done 0%nat (root_empty 64 afterDemo 1%nat) /\
  trace (root_empty 64 afterDemo 1%nat) = trace afterDemo ++ [EvGenerateMoves 1%nat 64] /\
  invocations [@EvGenerateMoves nat 1%nat 64] = 0 /\
  getNodesSearched (root_empty 64 afterDemo 1%nat) = 9.
Proof. vm_compute. repeat split. Qed.

(** C3 on a second call on [demoTree], by an engine whose counter reads 9
    from the first: the counter is reset and reads the 9 invocations of the
    second call, not 18; the bound is that of a 16-bit [int]. *)
Lemma C3_witness :
  getNodesSearched afterDemo = 9 /\
  getNodesSearched afterAgain
    = invocations (drop (length (trace afterDemo)) (trace afterAgain)) /\
  0 <= getNodesSearched afterAgain <= 32767.
Proof.
  split; [reflexivity|].
  destruct (proj1 (C3_node_count 0%nat 64 2 treeGame 32767 2 afterDemo 0%nat demoTree
                     eq_refl) 1%nat afterAgain) as (evs & Ht & Hcount & _).
  { vm_compute. reflexivity. }
  assert (Hevs : evs = drop (length (trace afterDemo)) (trace afterAgain))
    by (rewrite Ht, drop_app_length; reflexivity).
  subst evs. apply Hcount.
  - vm_compute. discriminate.
  - vm_compute. discriminate.
Defined.

(** C4 as stated fails: both moves of [lostTree] score -32000, the best
    score there is, and the call returns the default move 0, not move 1. *)
Lemma C4_counterexample :
  generateMoves treeGame lostTree 64 = [1%nat; 2%nat] /\
  rootScore 64 2 treeGame 2 lostTree true 1%nat = Some (-32000) /\
  rootScore 64 2 treeGame 2 lostTree true 2%nat = Some (-32000) /\
  treeFind 2 2 2%nat demoMachine = Done 0%nat afterLost /\
  0%nat <> 1%nat.
Proof. vm_compute. repeat split. discriminate. Qed.

(** C4 on [demoTree]: moves 1 and 3 both score 3; move 1 is returned. *)
Lemma C4_witness :
  exists i,
    generateMoves treeGame demoTree 64 !! i = Some 1%nat /\
    rootScore 64 2 treeGame 2 demoTree true 1%nat = Some 3 /\
    forall j mj, generateMoves treeGame demoTree 64 !! j = Some mj ->
      exists sj,
        rootScore 64 2 treeGame 2 demoTree true mj = Some sj /\
        ~ improves true sj 3 /\ ((j < i)%nat -> sj <> 3).
Proof.
  assert (Hmoves : generateMoves treeGame demoTree 64 <> []) by (vm_compute; discriminate).
  destruct (C4_earliest_best_move 0%nat 64 2 treeGame 2 demoMachine 0%nat demoTree
              eq_refl Hmoves) as [Hsel _].
  apply (Hsel 1%nat afterDemo); vm_compute; reflexivity.
Defined.

(** C5 on [cutTree], window closed at 5: the first reply scores 9 and the
    second is never touched; and the mirror image at a minimizing node. *)
Lemma C5_witness :
  (exists st1,
     maxLoop treeGame (minimax 64 treeGame 1) 4%nat 1 [1%nat; 2%nat] (-32000) 5 (-32000)
       demoMachine = Done 9 st1 /\
     trace st1 = [EvCopy 4%nat 5%nat; EvApplyMove 5%nat 1%nat;
                  EvMinimax 5%nat 0 (-32000) 5 false; EvEvaluate 5%nat]) /\
  (exists st1,
     minLoop treeGame (minimax 64 treeGame 1) 4%nat 1 [2%nat; 1%nat] 5 32000 32000
       demoMachine = Done 1 st1 /\
     trace st1 = [EvCopy 4%nat 5%nat; EvApplyMove 5%nat 2%nat;
                  EvMinimax 5%nat 0 5 32000 true; EvEvaluate 5%nat]).
Proof.
  split.
  - eexists. split.
    + apply (proj1 (C5_cutoff_skips_siblings 64 treeGame 1 demoMachine 4%nat 1 1%nat
                      [2%nat] (-32000) 5) (-32000) 9); [vm_compute; reflexivity | lia].
    + reflexivity.
  - eexists. split.
    + apply (proj2 (C5_cutoff_skips_siblings 64 treeGame 1 demoMachine 4%nat 1 2%nat
                      [1%nat] 5 32000) 32000 1); [vm_compute; reflexivity | lia].
    + reflexivity.
Defined.

(** C6 on the decided position at depth 3, minimizing flag. *)
Lemma C6_witness :
  exists calls,
    minimax 64 treeGame 1 1%nat 3 (-32000) 32000 false demoMachine
      = Done 4 (entered demoMachine 1%nat 3 (-32000) 32000 false calls) /\
    (calls = [EvEvaluate 1%nat] \/ calls = [EvIsTerminal 1%nat; EvEvaluate 1%nat]).
Proof.
  apply (C6_base_case 64 treeGame 0 demoMachine 1%nat decided 3 (-32000) 32000 false).
  - reflexivity.
  - right. reflexivity.
Defined.

(** C7 on the inner position without successors, whose heuristic value 7
    is not what comes back. *)
Lemma C7_witness :
  minimax 64 treeGame 1 3%nat 2 (-32000) 32000 true demoMachine
    = Done (-32000)
        (entered demoMachine 3%nat 2 (-32000) 32000 true
           [EvIsTerminal 3%nat; EvGenerateMoves 3%nat 64]).
Proof.
  apply (C7_no_move_returns_sentinel 64 treeGame 0 demoMachine 3%nat stuckTree
           2 (-32000) 32000 true); [reflexivity | lia | reflexivity | reflexivity].
Defined.

(** With depth bound 0 the search is entered at depth -1 and never meets
    depth 0. *)
Lemma endless_diverges fuel : forall l d alpha beta mp (st : @machine nat nat) s,
  d < 0 -> heap st !! l = Some s ->
  minimax 64 endlessGame fuel l d alpha beta mp st = Diverge.
Proof.
  induction fuel as [|fuel IH]; intros l d alpha beta mp st s Hd Hs; [reflexivity|].
  rewrite (minimax_eq 64 endlessGame fuel st l s) by exact Hs.
  destruct (Z.eqb_spec d 0); [lia|].
  cbn [isTerminal endlessGame generateMoves]. cbv zeta.
  destruct mp; cbn [maxLoop minLoop]; unfold bind;
    match goal with
    | |- context [searchChild _ _ _ _ _ _ _ _ ?m] =>
        erewrite (searchChild_eq endlessGame _ m l s) by exact Hs;
        erewrite IH; [reflexivity | lia | apply enter_lookup]
    end.
Qed.

(** C8 as stated fails: at depth bound 0, on a game that never ends, no
    stack is deep enough for the root call to return. *)
Lemma C8_counterexample :
  ~ exists fuel move st', endlessFind fuel = Done move st'.
Proof.
  intros (fuel & move & st' & Hrun). unfold endlessFind in Hrun.
  rewrite (findBestMove_eq 0%nat 64 0 endlessGame fuel (Minimax_new [0%nat] 0) 0%nat 0%nat
             eq_refl) in Hrun.
  cbv zeta in Hrun. cbn [generateMoves endlessGame length Z.of_nat Z.eqb] in Hrun.
  cbn [Pos.of_succ_nat Z.eqb] in Hrun.
  rewrite rootLoop_cons in Hrun.
  erewrite (searchChild_eq endlessGame) in Hrun by reflexivity.
  erewrite endless_diverges in Hrun; [discriminate | lia | apply enter_lookup].
Qed.

(** C8 on [demoTree] at depth bound 2. *)
Lemma C8_witness :
  exists move st' evs,
    treeFind 2 (Z.to_nat 2) 0%nat demoMachine = Done move st' /\
    treeFind 2 5 0%nat demoMachine = Done move st' /\
    trace st' = trace demoMachine ++ evs /\
    depths_within 0 (2 - 1) evs /\
    levels (length (heap demoMachine)) (2 - 1) evs.
Proof.
  apply (C8_bounded_recursion 0%nat 64 2 treeGame 5 demoMachine 0%nat demoTree);
    [lia | vm_compute; lia | reflexivity].
Defined.

(** C9 on [demoTree]. *)
Lemma C9_witness :
  heap afterDemo = heap demoMachine /\
  heap afterDemo !! 0%nat = Some demoTree /\
  exists evs,
    trace afterDemo = trace demoMachine ++ evs /\
    writes_above (length (heap demoMachine)) evs /\
    applies_on_copies evs = true.
Proof.
  apply (proj1 (C9_caller_state_untouched 0%nat 64 2 treeGame 2 demoMachine 0%nat demoTree
                  eq_refl) 1%nat afterDemo).
  vm_compute. reflexivity.
Defined.

(** C10 on [lostTree]: two legal moves, the default move comes back. *)
Lemma C10_witness :
  generateMoves treeGame lostTree 64 = [1%nat; 2%nat] /\
  forall move st',
    treeFind 2 2 2%nat demoMachine = Done move st' ->
    move = 0%nat /\ getBestScore st' = -32000.
Proof.
  split; [reflexivity|].
  assert (Hmoves : generateMoves treeGame lostTree 64 <> []) by (vm_compute; discriminate).
  refine (proj1 (C10_default_move_despite_moves 0%nat 64 2 treeGame 2 demoMachine 2%nat
                   lostTree eq_refl Hmoves _)).
  intros j mj sj Hj Hsc.
  destruct j as [|[|j]]; vm_compute in Hj; try discriminate;
    injection Hj as <-; vm_compute in Hsc; injection Hsc as <-; cbn; lia.
Defined.

(** X1 on [deepTree]: the exhaustive value 3 lies inside the full window
    and is what the search returns. *)
Lemma X1_witness :
  exists v st',
    minimax 64 treeGame 4 0%nat 3 (-32000) 32000 true deepMachine = Done v st' /\
    (-32000 < 3 < 32000 -> v = 3) /\
    (3 <= -32000 -> 3 <= v <= -32000) /\
    (32000 <= 3 -> 32000 <= v <= 3).
Proof.
  apply (X1_search_value_against_window 64 treeGame 4 3 true deepMachine 0%nat deepTree
           (-32000) 32000 3); [reflexivity | lia | vm_compute; reflexivity].
Defined.

(** X2 on the endless game, whose evaluation is always 0: a search of a
    position, and the best score of a root call. *)
Lemma X2_witness :
  (forall v m',
     minimax 64 endlessGame 2 0%nat 1 (-32000) 32000 true endlessMachine = Done v m' ->
     Z.min 0 (-32000) <= v <= Z.max 0 32000) /\
  Z.min 0 (-32000) <= getBestScore afterEndless <= Z.max 0 32000.
Proof.
  assert (Heval : forall s' : nat, 0 <= evaluate endlessGame s' <= 0) by (intros; cbn; lia).
  assert (Hmoves : generateMoves endlessGame 0%nat 64 <> []) by discriminate.
  destruct (X2_scores_in_range 0%nat 64 2 endlessGame 0 0 2 endlessMachine 0%nat 0%nat
              Heval eq_refl) as (Hsearch & Hroot & _).
  split.
  - intros v m'. apply Hsearch.
  - apply (Hroot Hmoves 1%nat afterEndless). vm_compute. reflexivity.
Defined.

(** X3 on the endless game at depth bound 2: the call returns, and the
    move returned is the one generated. *)
Lemma X3_witness :
  ((exists i, generateMoves endlessGame 0%nat 64 !! i = Some 1%nat) /\
   rootScore 64 2 endlessGame 2 0%nat (isMaximizingPlayer endlessGame 0%nat) 1%nat
     = Some (getBestScore afterEndless) /\
   -32000 < getBestScore afterEndless < 32000) /\
  exists move st',
    findBestMove 0%nat 64 2 endlessGame 2 0%nat endlessMachine = Done move st'.
Proof.
  assert (Heval : forall s' : nat, -32000 < evaluate endlessGame s' < 32000)
    by (intros; cbn; lia).
  assert (Hcontract : forall s' : nat,
            generateMoves endlessGame s' 64 = [] -> isTerminal endlessGame s' = true)
    by (intros s' H; discriminate H).
  assert (Hmoves : generateMoves endlessGame 0%nat 64 <> []) by discriminate.
  destruct (X3_returns_a_generated_move 0%nat 64 2 endlessGame 2 endlessMachine 0%nat 0%nat
              Heval Hcontract eq_refl Hmoves) as [Hsel Hret].
  split.
  - apply (Hsel 1%nat afterEndless). vm_compute. reflexivity.
  - apply Hret; [lia | vm_compute; lia].
Defined.

(** X4 on [demoTree] at depth bound 2 with a 16-bit [int]: the worst case
    64 * 65 fits, the call returns, and it makes between 3 and 64 * 65
    invocations (there are 9). *)
Lemma X4_witness :
  (Z.of_nat (length (generateMoves treeGame demoTree 64)) <= getNodesSearched afterDemo
     <= 64 * nodeBound 64 (Z.to_nat (2 - 1)) /\
   0 <= getNodesSearched afterDemo <= 32767) /\
  exists move st', treeFind 2 2 0%nat demoMachine = Done move st'.
Proof.
  assert (Hcap : forall s' : position,
            Z.of_nat (length (generateMoves treeGame s' 64)) <= 64).
  { intros s'. cbn [generateMoves treeGame]. rewrite length_take. lia. }
  assert (Hmoves : generateMoves treeGame demoTree 64 <> []) by (vm_compute; discriminate).
  assert (Hfit : 64 * nodeBound 64 (Z.to_nat (2 - 1)) <= 32767) by (vm_compute; discriminate).
  destruct (X4_node_count_bounds 0%nat 64 2 treeGame 32767 2 demoMachine 0%nat demoTree
              Hcap ltac:(lia) Hfit eq_refl Hmoves) as [Hcount Hret].
  split.
  - apply (Hcount 1%nat afterDemo). vm_compute. reflexivity.
  - apply Hret. vm_compute. lia.
Defined.

(** X5 on [deepTree] at depth bound 3: exhaustive search makes 6
    invocations, the pruned one (5) no more. *)
Lemma X5_witness : getNodesSearched afterDeep <= 6.
Proof.
  assert (Hmoves : generateMoves treeGame deepTree 64 <> []) by (vm_compute; discriminate).
  apply (proj1 (X5_pruned_work_at_most_exhaustive 0%nat 64 3 treeGame 3 deepMachine 0%nat
                  deepTree eq_refl Hmoves) 6 1%nat afterDeep);
    vm_compute; reflexivity.
Defined.

(** X6 on [demoTree]: the three root moves are applied, in order. *)
Lemma X6_witness :
  exists evs,
    trace afterDemo = trace demoMachine ++ evs /\
    applied_at (length (heap demoMachine)) evs = generateMoves treeGame demoTree 64.
Proof.
  apply (X6_root_tries_every_move 0%nat 64 2 treeGame 2 demoMachine 0%nat demoTree 1%nat
           afterDemo); [reflexivity | vm_compute; reflexivity].
Defined.

(** X7 on [cutTree] with the window closed at 5. *)
Lemma X7_witness :
  exists evs,
    trace afterCut = trace demoMachine ++ evs /\
    applied_at (length (heap demoMachine)) evs `prefix_of` generateMoves treeGame cutTree 64.
Proof.
  apply (X7_node_tries_a_prefix 64 treeGame 2 demoMachine 4%nat cutTree 1 (-32000) 5 true
           9 afterCut); [reflexivity | vm_compute; reflexivity].
Defined.

(** X8 on [deepTree]. *)
Lemma X8_witness :
  exists evs, trace afterDeep = trace deepMachine ++ evs /\ windows_open evs.
Proof.
  apply (X8_windows_stay_open 0%nat 64 3 treeGame 3 deepMachine 0%nat 1%nat afterDeep).
  vm_compute. reflexivity.
Defined.

(** X9 on [deepTree], whose root player maximizes. *)
Lemma X9_witness :
  exists evs,
    trace afterDeep = trace deepMachine ++
      EvGenerateMoves 0%nat 64 :: EvIsMaximizingPlayer 0%nat :: evs /\
    flags_alternate (length (heap deepMachine)) (negb (isMaximizingPlayer treeGame deepTree)) evs.
Proof.
  apply (X9_flags_alternate_by_level 0%nat 64 3 treeGame 3 deepMachine 0%nat deepTree 1%nat
           afterDeep); [reflexivity | vm_compute; discriminate | vm_compute; reflexivity].
Defined.

(** X10 on [demoTree], kept in cell 0 of a store of five cells. *)
Lemma X10_witness :
  exists calls evs,
    trace afterDemo = trace demoMachine ++ calls ++ evs /\
    (calls = [EvGenerateMoves 0%nat 64] \/
     calls = [EvGenerateMoves 0%nat 64; EvIsMaximizingPlayer 0%nat]) /\
    stays_above (length (heap demoMachine)) 0%nat evs.
Proof.
  apply (X10_root_state_is_only_copied 0%nat 64 2 treeGame 2 demoMachine 0%nat 1%nat
           afterDemo).
  vm_compute. reflexivity.
Defined.

(** X11: a fresh engine and the engine that has already searched
    [demoTree] give the same answer on [demoTree]. *)
Lemma X11_witness :
  agree_root (treeFind 2 2 0%nat demoMachine) (treeFind 2 2 0%nat afterDemo).
Proof.
  apply (X11_same_position_same_answer 0%nat 64 2 treeGame 2 demoMachine afterDemo
           0%nat 0%nat demoTree); [reflexivity | reflexivity | vm_compute; discriminate].
Defined.

(** X12: there is no cell 9 in the store. *)
Lemma X12_witness : treeFind 2 2 9%nat demoMachine = Fault.
Proof.
  apply (proj2 (X12_faults_only_on_dangling_reference 0%nat 64 2 treeGame 2 demoMachine
                  9%nat)).
  reflexivity.
Defined.

(** X13 on [demoTree] at depth bound 1: the replies are scored by their
    heuristic value 0 and three invocations are made. *)
Lemma X13_witness :
  (forall isMax move,
     rootScore 64 1 treeGame 1 demoTree isMax move
       = Some (evaluate treeGame (applyMove treeGame demoTree move))) /\
  exists move st',
    findBestMove 0%nat 64 1 treeGame 1 0%nat demoMachine = Done move st' /\
    getNodesSearched st' = Z.of_nat (length (generateMoves treeGame demoTree 64)).
Proof.
  apply (X13_one_ply 0%nat 64 1 treeGame 0 demoMachine 0%nat demoTree);
    [reflexivity | reflexivity | vm_compute; discriminate].
Defined.

(** X14 on [cutTree], from a counter at 0 with a 16-bit [int]: two
    invocations are logged and the counter reads 2. *)
Lemma X14_witness :
  heap afterCut = heap demoMachine /\
  _bestScore afterCut = _bestScore demoMachine /\
  _nodesSearched afterCut
    = _nodesSearched demoMachine + 1
      + invocations (drop (S (length (trace demoMachine))) (trace afterCut)) /\
  _nodesSearched demoMachine < _nodesSearched afterCut <= 32767.
Proof.
  destruct (X14_search_accounting 64 treeGame 32767 2 demoMachine 4%nat 1 (-32000) 5 true 9
              afterCut) as (Hh & Hb & evs & Ht & Hcount).
  { vm_compute. reflexivity. }
  split; [exact Hh|]. split; [exact Hb|].
  assert (Hevs : evs = drop (S (length (trace demoMachine))) (trace afterCut))
    by (rewrite Ht; reflexivity).
  subst evs. apply Hcount. vm_compute. discriminate.
Defined.
